(** * PhantomDB: encrypted purchase records

    A shallow embedding of the [PhantomDB] contract (Solidity) and of the
    record listing of its web client ([PurchaseRecords], TypeScript),
    followed by the properties of the record store, of the capability grants
    made on the write path, and of the read-side listing. *)

From Stdlib Require Import ZArith NArith.
From stdpp Require Import gmap strings list fin_maps pretty.

Set Warnings "-clear-no-such-hyp".
Local Open Scope N_scope.

(** ** Ledger values *)

(** An [address] is a 160-bit account identifier, a ciphertext handle
    ([euint32], [euint64] and their [external] forms) is a [bytes32] word;
    both are kept as natural numbers.  [uint256] values are naturals too:
    the only arithmetic the contract does on them is the checked
    subtraction [length - 1]. *)
Abbreviation address := N (only parsing).
Abbreviation handle := N (only parsing).

(** [uint64(x)]: the explicit narrowing conversion keeps the low 64 bits. *)
Definition uint64 (x : N) : N := x mod 2 ^ 64.

(** [bytes(s).length]: a [string] is a sequence of 8-bit characters. *)
Definition bytes_length (s : string) : N := N.of_nat (String.length s).

(** ** The encryption scheme *)

(** [FHE.fromExternal] belongs to the fhEVM library: it asks the coprocessor
    to check the input proof for an external handle submitted by [sender] to
    the contract [this] and reverts when the proof is rejected.  The library
    is an interface of the development: [None] is the revert. *)
Class EncryptionScheme := {
  fromExternal : address -> address -> handle -> list Byte.byte -> option handle
}.

Module PhantomDB.

Record Purchase := {
  userId : handle;
  item : string;
  quantity : handle;
  amount : handle;
  timestamp : N
}.

(** [event PurchaseAdded(address indexed merchant, uint256 indexed index,
    string item, uint64 timestamp)] *)
Inductive Event :=
| PurchaseAdded (merchant : address) (index : N) (item : string) (timestamp : N).

(** Custom errors of the contract, the revert of the encryption scheme and
    the compiler-inserted panics (0x11 arithmetic, 0x32 array bounds). *)
Inductive Error :=
| InvalidIndex
| InvalidItem
| SchemeRevert
| Panic (code : N).

(** Calls that leave the contract, in the order they are made. *)
Inductive ExtCall :=
| CallFromExternal (inputHandle : handle) (inputProof : list Byte.byte)
| CallAllow (h : handle) (account : address).

(** The ledger as the contract sees it: its own address
    ([address(this)], fixed at deployment), its storage
    ([_purchasesByMerchant]), the grant relation of the access-control
    registry, the event log, and the trace of external calls. *)
Record World := {
  this : address;
  purchasesByMerchant : gmap address (list Purchase);
  grants : gset (handle * address);
  logs : list Event;
  calls : list ExtCall
}.

(** The ledger right after the contract is deployed at [self]. *)
Definition initial (self : address) : World :=
  {| this := self; purchasesByMerchant := ∅; grants := ∅; logs := []; calls := [] |}.

(** The transaction context: [msg.sender] and [block.timestamp]. *)
Record Env := {
  msg_sender : address;
  block_timestamp : N
}.

Inductive Result (A : Type) :=
| Ok (a : A)
| Revert (e : Error).
Arguments Ok {A} a.
Arguments Revert {A} e.

(** Contract code runs in a state-and-error monad.  A [Revert] carries the
    world as it was when the revert was raised; undoing the writes of a
    reverted call is the runtime's work ([transact] below). *)
Definition M (A : Type) : Type := World -> Result A * World.

Definition ret {A} (a : A) : M A := fun w => (Ok a, w).

Definition bind {A B} (m : M A) (k : A -> M B) : M B :=
  fun w => match m w with
           | (Ok a, w') => k a w'
           | (Revert e, w') => (Revert e, w')
           end.

Definition revert {A} (e : Error) : M A := fun w => (Revert e, w).

Notation "x <~ m ; k" := (bind m (fun x => k))
  (at level 100, m at next level, right associativity, only parsing).
Notation "m ;; k" := (bind m (fun _ => k))
  (at level 100, right associativity, only parsing).

(** *** Storage access *)

(** A mapping is total: an absent key reads as the empty array. *)
Definition purchasesOf (merchant : address) (w : World) : list Purchase :=
  default [] (purchasesByMerchant w !! merchant).

(** [_purchasesByMerchant[merchant].length] *)
Definition length_of (merchant : address) : M N :=
  fun w => (Ok (N.of_nat (length (purchasesOf merchant w))), w).

(** [_purchasesByMerchant[merchant].push(p)] *)
Definition push (merchant : address) (p : Purchase) : M unit :=
  fun w => (Ok tt,
            {| this := this w; purchasesByMerchant :=
                 <[merchant := purchasesOf merchant w ++ [p]]> (purchasesByMerchant w);
               grants := grants w; logs := logs w; calls := calls w |}).

(** [_purchasesByMerchant[merchant][index]], bounds-checked. *)
Definition at_index (merchant : address) (index : N) : M Purchase :=
  fun w => match purchasesOf merchant w !! N.to_nat index with
           | Some p => (Ok p, w)
           | None => (Revert (Panic 0x32), w)
           end.

(** Checked [uint256] subtraction. *)
Definition checked_sub (a b : N) : M N :=
  if a <? b then revert (Panic 0x11) else ret (a - b).

Definition emit (e : Event) : M unit :=
  fun w => (Ok tt,
            {| this := this w; purchasesByMerchant := purchasesByMerchant w; grants := grants w;
               logs := logs w ++ [e]; calls := calls w |}).

(** *** Library calls *)

Definition record_call (c : ExtCall) (w : World) : World :=
  {| this := this w; purchasesByMerchant := purchasesByMerchant w; grants := grants w;
     logs := logs w; calls := calls w ++ [c] |}.

(** [FHE.fromExternal(inputHandle, inputProof)] *)
Definition FHE_fromExternal `{EncryptionScheme} (env : Env)
    (inputHandle : handle) (inputProof : list Byte.byte) : M handle :=
  fun w =>
    let w' := record_call (CallFromExternal inputHandle inputProof) w in
    match fromExternal (this w) (msg_sender env) inputHandle inputProof with
    | Some h => (Ok h, w')
    | None => (Revert SchemeRevert, w')
    end.

(** Modelled from the spec: the capability grant registry behind
    [FHE.allow] and [FHE.allowThis] (fhEVM library, not part of the
    sources).  A grant is a pair [(handle, principal)] of a relation;
    granting is idempotent and never an error; [isGranted] is a lookup. *)
Definition grant (h : handle) (principal : address)
    (g : gset (handle * address)) : gset (handle * address) :=
  {[ (h, principal) ]} ∪ g.

Definition isGranted (h : handle) (principal : address) (w : World) : bool :=
  bool_decide ((h, principal) ∈ grants w).

(** [FHE.allow(h, account)] *)
Definition FHE_allow (h : handle) (account : address) : M unit :=
  fun w => (Ok tt,
            {| this := this w; purchasesByMerchant := purchasesByMerchant w;
               grants := grant h account (grants w);
               logs := logs w;
               calls := calls w ++ [CallAllow h account] |}).

(** [FHE.allowThis(h)] is [FHE.allow(h, address(this))]. *)
Definition FHE_allowThis (h : handle) : M unit :=
  fun w => FHE_allow h (this w) w.

(** *** The contract's functions *)

Definition addPurchase `{EncryptionScheme} (env : Env) (item : string)
    (userIdExt quantityExt amountExt : handle) (inputProof : list Byte.byte)
    : M unit :=
  if (bytes_length item =? 0) || (64 <? bytes_length item)
  then revert InvalidItem
  else
    userId <~ FHE_fromExternal env userIdExt inputProof;
    quantity <~ FHE_fromExternal env quantityExt inputProof;
    amount <~ FHE_fromExternal env amountExt inputProof;
    push (msg_sender env)
      {| userId := userId; item := item; quantity := quantity;
         amount := amount; timestamp := uint64 (block_timestamp env) |};;
    len <~ length_of (msg_sender env);
    index <~ checked_sub len 1;
    p <~ at_index (msg_sender env) index;
    FHE_allowThis (PhantomDB.userId p);;
    FHE_allow (PhantomDB.userId p) (msg_sender env);;
    FHE_allowThis (PhantomDB.quantity p);;
    FHE_allow (PhantomDB.quantity p) (msg_sender env);;
    FHE_allowThis (PhantomDB.amount p);;
    FHE_allow (PhantomDB.amount p) (msg_sender env);;
    emit (PurchaseAdded (msg_sender env) index item (uint64 (block_timestamp env))).

Definition getPurchaseCount (merchant : address) : M N :=
  length_of merchant.

Definition getPurchase (merchant : address) (index : N)
    : M (handle * string * handle * handle * N) :=
  len <~ length_of merchant;
  if len <=? index then revert InvalidIndex
  else
    p <~ at_index merchant index;
    ret (userId p, item p, quantity p, amount p, timestamp p).

(** *** The runtime *)

(** A transaction is atomic: a call that reverts leaves the ledger as it
    was. *)
Definition transact {A} (m : M A) (w : World) : Result A * World :=
  match m w with
  | (Ok a, w') => (Ok a, w')
  | (Revert e, _) => (Revert e, w)
  end.

(** *** Sequences of calls *)

Inductive Op :=
| OpAddPurchase (env : Env) (item : string)
    (userIdExt quantityExt amountExt : handle) (inputProof : list Byte.byte)
| OpGetPurchaseCount (merchant : address)
| OpGetPurchase (merchant : address) (index : N).

Definition is_ok {A} (r : Result A) : bool :=
  match r with Ok _ => true | Revert _ => false end.

(** The ledger after one call, run as a transaction. *)
Definition exec `{EncryptionScheme} (op : Op) (w : World) : World :=
  match op with
  | OpAddPurchase env item u q a proof =>
      (transact (addPurchase env item u q a proof) w).2
  | OpGetPurchaseCount merchant => (transact (getPurchaseCount merchant) w).2
  | OpGetPurchase merchant index => (transact (getPurchase merchant index) w).2
  end.

Definition run `{EncryptionScheme} (ops : list Op) (w : World) : World :=
  foldl (fun w op => exec op w) w ops.

(** A successful [addPurchase] sent by [owner]. *)
Definition appends_for `{EncryptionScheme} (owner : address) (op : Op)
    (w : World) : bool :=
  match op with
  | OpAddPurchase env item u q a proof =>
      bool_decide (msg_sender env = owner)
      && is_ok (addPurchase env item u q a proof w).1
  | _ => false
  end.

(** How many calls of [ops], run from [w], are successful appends of
    [owner]. *)
Fixpoint appended `{EncryptionScheme} (owner : address) (ops : list Op)
    (w : World) : nat :=
  match ops with
  | [] => 0%nat
  | op :: ops' =>
      ((if appends_for owner op w then 1 else 0) + appended owner ops' (exec op w))%nat
  end.

(** The indices announced for [owner] by the event log, oldest first. *)
Fixpoint announced (owner : address) (l : list Event) : list N :=
  match l with
  | [] => []
  | PurchaseAdded merchant index _ _ :: l' =>
      if bool_decide (merchant = owner) then index :: announced owner l'
      else announced owner l'
  end.

End PhantomDB.

(** ** The record listing of the web client *)

Module PurchaseRecords.
Import PhantomDB.

Record RecordRow := {
  index : Z;
  item : string;
  timestamp : Z;
  userIdHandle : handle;
  quantityHandle : handle;
  amountHandle : handle
}.

Definition MAX_TO_LOAD : Z := 200.

(** What a read can throw: the revert of the contract, or the refusal to
    encode a negative [bigint] as a [uint256]. *)
Inductive LoadError :=
| ContractReverted (e : Error)
| IntegerOutOfRange.

(** [publicClient.readContract]: a call of a view function against the
    ledger; the ledger is not changed. *)
Definition readContract {A} (m : M A) (w : World) : LoadError + A :=
  match (m w).1 with
  | Ok a => inr a
  | Revert e => inl (ContractReverted e)
  end.

(** [for (let i = 0n; i < capped; i++) indices.push(purchaseCount - 1n - i)] *)
Fixpoint indices_loop (fuel : nat) (purchaseCount capped i : Z)
    (indices : list Z) : option (list Z) :=
  if (i <? capped)%Z then
    match fuel with
    | O => None
    | S fuel' =>
        indices_loop fuel' purchaseCount capped (i + 1)%Z
          (indices ++ [(purchaseCount - 1 - i)%Z])
    end
  else Some indices.

(** The callback of [indices.map]: one [getPurchase] read, unpacked into
    a row. *)
Definition load_row (address : address) (w : World) (idx : Z)
    : LoadError + RecordRow :=
  if (idx <? 0)%Z then inl IntegerOutOfRange
  else
    match readContract (getPurchase address (Z.to_N idx)) w with
    | inl e => inl e
    | inr (p0, p1, p2, p3, p4) =>
        inr {| index := idx; userIdHandle := p0; item := p1;
               quantityHandle := p2; amountHandle := p3;
               timestamp := Z.of_N p4 |}
    end.

(** [Promise.all]: all the results in the order of the requests, or the
    first failure. *)
Fixpoint promise_all {A B} (f : A -> LoadError + B) (l : list A)
    : LoadError + list B :=
  match l with
  | [] => inr []
  | x :: l' =>
      match f x with
      | inl e => inl e
      | inr y =>
          match promise_all f l' with
          | inl e => inl e
          | inr ys => inr (y :: ys)
          end
      end
  end.

(** The state of the component that [load] sets. *)
Record View := {
  isLoading : bool;
  error : option LoadError;
  count : Z;
  rows : list RecordRow
}.

(** The body of [load] for a connected wallet [address], read against the
    ledger [w] and not cancelled.  The loop is given [capped] steps of
    fuel; running out of fuel is reported as the loop not finishing. *)
Definition load (address : option address) (w : World) (v : View)
    : option View :=
  match address with
  | None => Some v
  | Some address =>
      match readContract (getPurchaseCount address) w with
      | inl e =>
          Some {| isLoading := false; error := Some e;
                  count := count v; rows := rows v |}
      | inr n =>
          let purchaseCount := Z.of_N n in
          let capped :=
            if (MAX_TO_LOAD <? purchaseCount)%Z then MAX_TO_LOAD else purchaseCount in
          match indices_loop (Z.to_nat capped) purchaseCount capped 0 [] with
          | None => None
          | Some indices =>
              match promise_all (load_row address w) indices with
              | inl e =>
                  Some {| isLoading := false; error := Some e;
                          count := purchaseCount; rows := rows v |}
              | inr loaded =>
                  Some {| isLoading := false; error := None;
                          count := purchaseCount; rows := loaded |}
              end
          end
      end
  end.

(** *** What the component renders from the view *)

(** [count > MAX_TO_LOAD ? <span>Showing latest 200</span> : null] *)
Definition shows_latest (v : View) : bool := (MAX_TO_LOAD <? count v)%Z.

(** [isLoading ? ... : rows.length === 0 ? <p>No records yet.</p> : ...] *)
Definition shows_no_records (v : View) : bool :=
  negb (isLoading v) && (length (rows v) =? 0)%nat.

(** The React key of a row: [row.index.toString()]. *)
Definition row_key (row : RecordRow) : string := pretty (index row).

(** [handleContractPairs] of [decryptRow]: the three handles of the row,
    each with the contract. *)
Definition handleContractPairs (row : RecordRow) (contractAddress : address)
    : list (handle * address) :=
  [ (userIdHandle row, contractAddress);
    (quantityHandle row, contractAddress);
    (amountHandle row, contractAddress) ].

End PurchaseRecords.

(** ** Decrypting a row in the web client *)

Module Decryption.
Import PurchaseRecords.

(** A value the relayer returns for a handle. *)
Inductive ClearValue :=
| ClearBigInt (z : Z)
| ClearBool (b : bool)
| ClearString (s : string).

(** [String(v)] *)
Definition String_of (v : ClearValue) : string :=
  match v with
  | ClearBigInt z => pretty z
  | ClearBool true => "true"
  | ClearBool false => "false"
  | ClearString s => s
  end.

(** The relayer instance and the signer are libraries.  [userDecrypt] is
    given the pairs, the contract addresses and the user address, and returns
    the clear values by handle or throws ([None]); the key pair, the EIP-712
    message, its signature and the validity window only travel from one
    library call to the next: [signTypedData] tells whether signing goes
    through. *)
Record Instance := {
  userDecrypt : list (handle * address) -> list address -> address
                -> option (gmap handle ClearValue)
}.

Record Signer := {
  signTypedData : bool
}.

(** The body of the [try] block: the result of [userDecrypt], or [None] when
    something was thrown on the way. *)
Definition request (inst : Instance) (user : address)
    (signer : option Signer) (contractAddress : address) (row : RecordRow)
    : option (gmap handle ClearValue) :=
  match signer with
  | None => None
  | Some signer =>
      if signTypedData signer then
        userDecrypt inst (handleContractPairs row contractAddress)
          [contractAddress] user
      else None
  end.

(** What the hooks give the component: [instance], [address], and
    [signerPromise] (absent, or a promise that resolves to a signer or to
    nothing). *)
Record Hooks := {
  instance : option Instance;
  address : option address;
  signerPromise : option (option Signer)
}.

Record DecryptedRow := {
  userId : string;
  quantity : string;
  amount : string
}.

Inductive Alert :=
| MissingComponents
| FailedToDecrypt.

(** The state [decryptRow] sets, and the alerts shown so far. *)
Record State := {
  decryptingIndex : option Z;
  decrypted : gmap string DecryptedRow;
  alerts : list Alert
}.

(** [String(result[h] ?? '')] *)
Definition shown (result : gmap handle ClearValue) (h : handle) : string :=
  match result !! h with
  | Some v => String_of v
  | None => ""
  end.

Definition decryptRow (hooks : Hooks) (contractAddress : N)
    (row : RecordRow) (st : State) : State :=
  match instance hooks, address hooks, signerPromise hooks with
  | Some inst, Some user, Some signer =>
      match request inst user signer contractAddress row with
      | Some result =>
          {| decryptingIndex := None;
             decrypted :=
               <[row_key row :=
                   {| userId := shown result (userIdHandle row);
                      quantity := shown result (quantityHandle row);
                      amount := shown result (amountHandle row) |}]>
                 (decrypted st);
             alerts := alerts st |}
      | None =>
          {| decryptingIndex := None;
             decrypted := decrypted st;
             alerts := alerts st ++ [FailedToDecrypt] |}
      end
  | _, _, _ =>
      {| decryptingIndex := decryptingIndex st;
         decrypted := decrypted st;
         alerts := alerts st ++ [MissingComponents] |}
  end.

(** What a row shows for its three encrypted fields: the decrypted values
    when there are some under its key, the handles otherwise. *)
Definition is_decrypted (st : State) (row : RecordRow) : bool :=
  bool_decide (is_Some (decrypted st !! row_key row)).

End Decryption.

(** ** The purchase form of the web client *)

(** What [Number(value)] can be for [parseUint32]: an integer, or anything
    else (a fraction, [NaN], an infinity). *)
Inductive JsNumber :=
| Integral (n : Z)
| NonIntegral.

(** The strings of the form and the built-in functions applied to them.
    [js_length] is [.length], [js_BigInt] is [None] when [BigInt] throws,
    [toUtf8Bytes] is the encoding of a string argument of a contract call
    ([None] when it throws). *)
Class JsBuiltins := {
  JsString : Type;
  js_length : JsString -> nat;
  js_trim : JsString -> JsString;
  js_Number : JsString -> JsNumber;
  js_BigInt : JsString -> option Z;
  toUtf8Bytes : JsString -> option string
}.

Module PurchaseForm.
Section WithBuiltins.
Context `{JsBuiltins}.

Definition parseUint32 (value : JsString) : option Z :=
  match js_Number value with
  | Integral n => if (n <? 0)%Z || (0xffffffff <? n)%Z then None else Some n
  | NonIntegral => None
  end.

Definition parseUint64 (value : JsString) : option Z :=
  match js_BigInt value with
  | Some b => if (b <? 0)%Z || (0xffffffffffffffff <? b)%Z then None else Some b
  | None => None
  end.

(** The fields of the form and its [isSubmitting] flag. *)
Record Form := {
  userId : JsString;
  item : JsString;
  quantity : JsString;
  amount : JsString;
  isSubmitting : bool
}.

(** What [submit] hands to the libraries once its guard is passed: the user
    of the encrypted input, the values of [add32], [add32] and [add64], and
    the item of the [addPurchase] call. *)
Record Submission := {
  input_user : address;
  add32_userId : Z;
  add32_quantity : Z;
  add64_amount : Z;
  call_item : JsString
}.

(** [address], and whether [instance] and [signerPromise] are there. *)
Record Hooks := {
  address : option address;
  instance : bool;
  signerPromise : bool
}.

Record Parsed := {
  parsed_userId : option Z;
  parsed_quantity : option Z;
  parsed_amount : option Z;
  parsed_item : JsString
}.

Definition parsed (f : Form) : Parsed :=
  {| parsed_userId := parseUint32 (js_trim (userId f));
     parsed_quantity := parseUint32 (js_trim (quantity f));
     parsed_amount := parseUint64 (js_trim (amount f));
     parsed_item := js_trim (item f) |}.

(** A string is truthy when it is not empty. *)
Definition truthy (s : JsString) : bool := negb (js_length s =? 0)%nat.

Definition canSubmit (h : Hooks) (f : Form) : bool :=
  bool_decide (is_Some (address h))
  && instance h
  && signerPromise h
  && truthy (parsed_item (parsed f))
  && (js_length (parsed_item (parsed f)) <=? 64)%nat
  && bool_decide (is_Some (parsed_userId (parsed f)))
  && bool_decide (is_Some (parsed_quantity (parsed f)))
  && bool_decide (is_Some (parsed_amount (parsed f)))
  && negb (isSubmitting f).

(** [submit] up to the call of the libraries; [None] is the early return. *)
Definition submit (h : Hooks) (f : Form) : option Submission :=
  if negb (canSubmit h f) || negb (bool_decide (is_Some (address h)))
     || negb (instance h) || negb (signerPromise h)
  then None
  else
    match address h, parsed_userId (parsed f), parsed_quantity (parsed f),
          parsed_amount (parsed f) with
    | Some user, Some u, Some q, Some a =>
        Some {| input_user := user; add32_userId := u; add32_quantity := q;
                add64_amount := a; call_item := parsed_item (parsed f) |}
    | _, _, _, _ => None
    end.

End WithBuiltins.
End PurchaseForm.

(** ** A small encryption scheme for examples *)

(** Accepts an input when its proof is not empty; the handle it returns is
    the external handle. *)
Definition sample_fromExternal (this sender : address) (inputHandle : handle)
    (inputProof : list Byte.byte) : option handle :=
  match inputProof with
  | [] => None
  | _ :: _ => Some inputHandle
  end.

Definition sample_scheme : EncryptionScheme :=
  {| fromExternal := sample_fromExternal |}.

(** A merchant, another one, and the deployed contract. *)
Definition alice : address := 0xA11CE.
Definition bob : address := 0xB0B.
Definition deployed : address := 0xDB.

Definition alice_env : PhantomDB.Env :=
  {| PhantomDB.msg_sender := alice; PhantomDB.block_timestamp := 1700000000 |}.
Definition bob_env : PhantomDB.Env :=
  {| PhantomDB.msg_sender := bob; PhantomDB.block_timestamp := 1700000060 |}.

Definition some_proof : list Byte.byte := [Byte.x01].

Definition add_coffee : PhantomDB.Op :=
  PhantomDB.OpAddPurchase alice_env "Coffee" 11 12 13 some_proof.
Definition add_tea : PhantomDB.Op :=
  PhantomDB.OpAddPurchase alice_env "Tea" 21 22 23 some_proof.
Definition add_milk : PhantomDB.Op :=
  PhantomDB.OpAddPurchase alice_env "Milk" 31 32 33 some_proof.
Definition add_bread : PhantomDB.Op :=
  PhantomDB.OpAddPurchase bob_env "Bread" 41 42 43 some_proof.

(** The ledger after one purchase of alice, and after three. *)
Definition one_record : PhantomDB.World :=
  @PhantomDB.run sample_scheme [add_coffee] (PhantomDB.initial deployed).
Definition three_records : PhantomDB.World :=
  @PhantomDB.run sample_scheme [add_coffee; add_tea; add_milk]
    (PhantomDB.initial deployed).

(** The ledger after a purchase of alice and one of bob. *)
Definition two_owners : PhantomDB.World :=
  @PhantomDB.run sample_scheme [add_coffee; add_bread] (PhantomDB.initial deployed).

Definition empty_view : PurchaseRecords.View :=
  {| PurchaseRecords.isLoading := false; PurchaseRecords.error := None;
     PurchaseRecords.count := 0; PurchaseRecords.rows := [] |}.



(** Built-ins for examples: strings of ASCII characters without blanks
    around them, numbers written with decimal digits (the empty string reads
    as 0). *)
Fixpoint decimal_value (s : string) (acc : Z) : option Z :=
  match s with
  | EmptyString => Some acc
  | String c s' =>
      let d := Z.of_nat (Ascii.nat_of_ascii c) in
      if (48 <=? d)%Z && (d <=? 57)%Z
      then decimal_value s' (10 * acc + (d - 48))%Z
      else None
  end.

Definition sample_builtins : JsBuiltins :=
  {| JsString := string;
     js_length := String.length;
     js_trim := fun s => s;
     js_Number := fun s => match decimal_value s 0 with
                           | Some n => Integral n
                           | None => NonIntegral
                           end;
     js_BigInt := fun s => decimal_value s 0;
     toUtf8Bytes := Some |}.

(** The form of the tests, filled in by alice. *)
Definition coffee_form : @PurchaseForm.Form sample_builtins :=
  {| PurchaseForm.userId := "1001" : @JsString sample_builtins;
     PurchaseForm.item := "Coffee" : @JsString sample_builtins;
     PurchaseForm.quantity := "2" : @JsString sample_builtins;
     PurchaseForm.amount := "700" : @JsString sample_builtins;
     PurchaseForm.isSubmitting := false |}.

Definition alice_hooks : PurchaseForm.Hooks :=
  {| PurchaseForm.address := Some alice; PurchaseForm.instance := true;
     PurchaseForm.signerPromise := true |}.

Definition coffee_submission : @PurchaseForm.Submission sample_builtins :=
  {| PurchaseForm.input_user := alice;
     PurchaseForm.add32_userId := 1001; PurchaseForm.add32_quantity := 2;
     PurchaseForm.add64_amount := 700;
     PurchaseForm.call_item := "Coffee" : @JsString sample_builtins |}.

(** ** Notions used in the statements *)

Import PhantomDB.

(** The item check of [addPurchase], as a proposition. *)
Definition invalid_item (item : string) : Prop :=
  bytes_length item = 0 ∨ 64 < bytes_length item.

(** [count(owner)]: the length of the array of the owner. *)
Definition count_of (owner : address) (w : World) : N :=
  N.of_nat (length (purchasesOf owner w)).

(** The record built by [addPurchase] from the handles of the scheme. *)
Definition new_purchase (env : Env) (item : string) (hu hq ha : handle) : Purchase :=
  {| userId := hu; item := item; quantity := hq; amount := ha;
     timestamp := uint64 (block_timestamp env) |}.

(** The six grants of one record: each handle to the contract and to the
    sender. *)
Definition record_grants (self sender : address) (hu hq ha : handle)
    : gset (handle * address) :=
  {[ (hu, self); (hu, sender); (hq, self); (hq, sender); (ha, self); (ha, sender) ]}.

(** The external calls of an accepted [addPurchase], in order. *)
Definition write_calls (self sender : address) (u q a : handle)
    (proof : list Byte.byte) (hu hq ha : handle) : list ExtCall :=
  [ CallFromExternal u proof; CallFromExternal q proof; CallFromExternal a proof;
    CallAllow hu self; CallAllow hu sender;
    CallAllow hq self; CallAllow hq sender;
    CallAllow ha self; CallAllow ha sender ].

(** The ledger an accepted [addPurchase] leaves. *)
Definition appended_world (env : Env) (item : string) (u q a : handle)
    (proof : list Byte.byte) (hu hq ha : handle) (w : World) : World :=
  {| this := this w;
     purchasesByMerchant :=
       <[msg_sender env :=
           purchasesOf (msg_sender env) w ++ [new_purchase env item hu hq ha]]>
         (purchasesByMerchant w);
     grants :=
       grant ha (msg_sender env) (grant ha (this w)
         (grant hq (msg_sender env) (grant hq (this w)
           (grant hu (msg_sender env) (grant hu (this w) (grants w))))));
     logs := logs w ++ [PurchaseAdded (msg_sender env) (count_of (msg_sender env) w)
                          item (uint64 (block_timestamp env))];
     calls := calls w ++ write_calls (this w) (msg_sender env) u q a proof hu hq ha |}.

(** [w'] differs from [w] at most by calls to [FHE.fromExternal] added to
    the trace: storage, grants and event log are those of [w]. *)
Definition only_scheme_calls (w w' : World) : Prop :=
  this w' = this w ∧
  purchasesByMerchant w' = purchasesByMerchant w ∧
  grants w' = grants w ∧
  logs w' = logs w ∧
  ∃ cs, calls w' = calls w ++ cs ∧
        Forall (fun c => ∃ x proof, c = CallFromExternal x proof) cs.

(** The row the listing shows for the record [p] stored at index [idx]:
    the plaintext fields and the three handles as they are stored. *)
Definition row_of (idx : Z) (p : Purchase) : PurchaseRecords.RecordRow :=
  {| PurchaseRecords.index := idx;
     PurchaseRecords.item := item p;
     PurchaseRecords.timestamp := Z.of_N (timestamp p);
     PurchaseRecords.userIdHandle := userId p;
     PurchaseRecords.quantityHandle := quantity p;
     PurchaseRecords.amountHandle := amount p |}.

(** The [k] most recent records of an owner as rows, highest index first. *)
Definition most_recent (k : nat) (owner : address) (w : World)
    : list PurchaseRecords.RecordRow :=
  take k (reverse (imap (fun i p => row_of (Z.of_nat i) p) (purchasesOf owner w))).

(** The listing as the specification words it, for comparison with [load]:
    [listRecent(owner, maxCount)] returns up to [maxCount] most recent
    records, highest indices first, and never more than 200. *)
Definition spec_listRecent (owner : address) (maxCount : N) (w : World)
    : list PurchaseRecords.RecordRow :=
  most_recent (N.to_nat (N.min maxCount 200)) owner w.

(** Every grant on the ledger is held by the contract or by the owner of a
    record that carries the handle. *)
Definition grants_to_owners (w : World) : Prop :=
  ∀ h principal,
    (h, principal) ∈ grants w ->
    principal = this w
    ∨ ∃ p, p ∈ purchasesOf principal w
           ∧ (h = userId p ∨ h = quantity p ∨ h = amount p).

(** The events of the log that name [owner] as merchant, oldest first. *)
Fixpoint events_of (owner : address) (l : list Event) : list Event :=
  match l with
  | [] => []
  | PurchaseAdded merchant index it ts :: l' =>
      if bool_decide (merchant = owner)
      then PurchaseAdded merchant index it ts :: events_of owner l'
      else events_of owner l'
  end.

(** The event that announces the record [p] stored at position [k] of
    [owner]. *)
Definition event_of (owner : address) (k : nat) (p : Purchase) : Event :=
  PurchaseAdded owner (N.of_nat k) (item p) (timestamp p).

(** [h] is one of the three handles of the record. *)
Definition handle_of (p : Purchase) (h : handle) : Prop :=
  h = userId p ∨ h = quantity p ∨ h = amount p.

(** Every stored record has an item of 1 to 64 bytes and a timestamp that
    fits 64 bits. *)
Definition records_wellformed (w : World) : Prop :=
  ∀ owner p,
    p ∈ purchasesOf owner w ->
    1 <= bytes_length (item p) <= 64 ∧ timestamp p < 2 ^ 64.

(** The event log and the records agree, owner by owner. *)
Definition events_mirror_records (w : World) : Prop :=
  ∀ owner, events_of owner (logs w) = imap (event_of owner) (purchasesOf owner w).

(** The grants are those of the stored records, no more and no less. *)
Definition grants_are_record_grants (w : World) : Prop :=
  ∀ h principal,
    (h, principal) ∈ grants w
    <-> ∃ owner p, p ∈ purchasesOf owner w ∧ handle_of p h
                   ∧ (principal = owner ∨ principal = this w).

(** The handles the scheme returns for the three inputs of a call, when it
    accepts all of them. *)
Definition accepted_handles `{EncryptionScheme} (self : address) (env : Env)
    (u q a : handle) (proof : list Byte.byte) : option (handle * handle * handle) :=
  match fromExternal self (msg_sender env) u proof,
        fromExternal self (msg_sender env) q proof,
        fromExternal self (msg_sender env) a proof with
  | Some hu, Some hq, Some ha => Some (hu, hq, ha)
  | _, _, _ => None
  end.

(** The call is an [addPurchase] that the contract deployed at [self] lets
    through: the item passes the check and the scheme accepts the inputs. *)
Definition writes `{EncryptionScheme} (self : address) (op : Op) : bool :=
  match op with
  | OpAddPurchase env item u q a proof =>
      negb ((bytes_length item =? 0) || (64 <? bytes_length item))
      && bool_decide (is_Some (accepted_handles self env u q a proof))
  | _ => false
  end.

(** ** Running [addPurchase] *)

Section Execution.
Context `{EncryptionScheme}.

Lemma invalid_item_test item :
  (bytes_length item =? 0) || (64 <? bytes_length item) = true <-> invalid_item item.
Proof.
  unfold invalid_item.
  rewrite orb_true_iff, N.eqb_eq, N.ltb_lt. reflexivity.
Qed.

Lemma valid_item_test item :
  (bytes_length item =? 0) || (64 <? bytes_length item) = false <-> ¬ invalid_item item.
Proof.
  rewrite <- invalid_item_test. destruct (_ || _); split; congruence.
Qed.

Lemma invalid_item_dec item : {invalid_item item} + {¬ invalid_item item}.
Proof.
  destruct ((bytes_length item =? 0) || (64 <? bytes_length item)) eqn:E.
  - left. by apply invalid_item_test.
  - right. by apply valid_item_test.
Qed.

Lemma purchasesOf_push merchant p w :
  purchasesOf merchant (push merchant p w).2 = purchasesOf merchant w ++ [p].
Proof. unfold purchasesOf at 1. simpl. by rewrite lookup_insert_eq. Qed.

(** The item check fails: the call reverts at once, the world untouched. *)
Lemma addPurchase_invalid env item u q a proof w :
  invalid_item item ->
  addPurchase env item u q a proof w = (Revert InvalidItem, w).
Proof.
  intros Hi. apply invalid_item_test in Hi.
  unfold addPurchase. by rewrite Hi.
Qed.

(** Stepping through a [bind]. *)
Lemma bind_ok {A B} (m : M A) (k : A -> M B) w a w' :
  m w = (Ok a, w') -> bind m k w = k a w'.
Proof. unfold bind. by intros ->. Qed.

Lemma bind_revert {A B} (m : M A) (k : A -> M B) w e w' :
  m w = (Revert e, w') -> bind m k w = (Revert e, w').
Proof. unfold bind. by intros ->. Qed.

Lemma FHE_fromExternal_ok env x proof w h :
  fromExternal (this w) (msg_sender env) x proof = Some h ->
  FHE_fromExternal env x proof w = (Ok h, record_call (CallFromExternal x proof) w).
Proof. unfold FHE_fromExternal. by intros ->. Qed.

Lemma FHE_fromExternal_revert env x proof w :
  fromExternal (this w) (msg_sender env) x proof = None ->
  FHE_fromExternal env x proof w
  = (Revert SchemeRevert, record_call (CallFromExternal x proof) w).
Proof. unfold FHE_fromExternal. by intros ->. Qed.

Lemma purchasesOf_record_call merchant c w :
  purchasesOf merchant (record_call c w) = purchasesOf merchant w.
Proof. reflexivity. Qed.

Lemma push_ok merchant p w :
  push merchant p w = (Ok tt, (push merchant p w).2).
Proof. reflexivity. Qed.

Lemma length_of_ok merchant w :
  length_of merchant w = (Ok (N.of_nat (length (purchasesOf merchant w))), w).
Proof. reflexivity. Qed.

(** After a push the array is not empty: [length - 1] does not underflow
    and is the position of the pushed record. *)
Lemma checked_sub_length {A} (l : list A) (x : A) w :
  checked_sub (N.of_nat (length (l ++ [x]))) 1 w = (Ok (N.of_nat (length l)), w).
Proof.
  unfold checked_sub. rewrite length_app. cbn [length].
  replace (N.of_nat (length l + 1)) with (N.of_nat (length l) + 1) by lia.
  destruct (N.ltb_spec (N.of_nat (length l) + 1) 1) as [Hlt | _]; [ lia |].
  unfold ret. do 2 f_equal. lia.
Qed.

Lemma lookup_last_pushed {A} (l : list A) (x : A) :
  (l ++ [x]) !! N.to_nat (N.of_nat (length l)) = Some x.
Proof. rewrite Nat2N.id. apply list_lookup_middle. reflexivity. Qed.

(** The item passes and the scheme accepts the three inputs: the call runs
    to its end. *)
Lemma addPurchase_accepted env item u q a proof w hu hq ha :
  ¬ invalid_item item ->
  fromExternal (this w) (msg_sender env) u proof = Some hu ->
  fromExternal (this w) (msg_sender env) q proof = Some hq ->
  fromExternal (this w) (msg_sender env) a proof = Some ha ->
  addPurchase env item u q a proof w
  = (Ok tt, appended_world env item u q a proof hu hq ha w).
Proof.
  intros Hi Hu Hq Ha. apply valid_item_test in Hi.
  unfold addPurchase. rewrite Hi.
  rewrite (bind_ok _ _ _ _ _ (FHE_fromExternal_ok _ _ _ _ _ Hu)).
  set (w1 := record_call _ w).
  rewrite (bind_ok _ _ _ _ _ (FHE_fromExternal_ok env q proof w1 hq Hq)).
  set (w2 := record_call _ w1).
  rewrite (bind_ok _ _ _ _ _ (FHE_fromExternal_ok env a proof w2 ha Ha)).
  set (w3 := record_call _ w2).
  set (p := {| userId := hu |}).
  rewrite (bind_ok _ _ _ _ _ (push_ok _ _ _)).
  rewrite (bind_ok _ _ _ _ _ (length_of_ok _ _)).
  rewrite purchasesOf_push.
  rewrite (bind_ok _ _ _ _ _ (checked_sub_length _ _ _)).
  unfold at_index at 1. unfold bind at 1.
  rewrite purchasesOf_push, lookup_last_pushed.
  cbv [bind FHE_allowThis FHE_allow emit push].
  cbn [this grants logs calls purchasesByMerchant userId quantity amount snd p].
  unfold appended_world, count_of, write_calls, new_purchase.
  do 2 f_equal. subst w3 w2 w1. cbn [calls record_call].
  by rewrite <- !app_assoc.
Qed.

(** The item passes and the scheme rejects one of the inputs: the call
    reverts before anything is written. *)
Lemma addPurchase_rejected env item u q a proof w :
  ¬ invalid_item item ->
  fromExternal (this w) (msg_sender env) u proof = None
  ∨ fromExternal (this w) (msg_sender env) q proof = None
  ∨ fromExternal (this w) (msg_sender env) a proof = None ->
  ∃ w', addPurchase env item u q a proof w = (Revert SchemeRevert, w')
        ∧ only_scheme_calls w w'.
Proof.
  intros Hi Hnone. apply valid_item_test in Hi.
  unfold addPurchase. rewrite Hi.
  assert (Hfe : ∀ x p, ∃ x' p', CallFromExternal x p = CallFromExternal x' p')
    by (intros; eauto).
  destruct (fromExternal (this w) (msg_sender env) u proof) as [hu|] eqn:Hu.
  2:{ rewrite (bind_revert _ _ _ _ _ (FHE_fromExternal_revert _ _ _ _ Hu)).
      eexists; split; [ reflexivity |].
      repeat split; exists [CallFromExternal u proof]; split; [ done |].
      repeat constructor; apply Hfe. }
  rewrite (bind_ok _ _ _ _ _ (FHE_fromExternal_ok _ _ _ _ _ Hu)).
  set (w1 := record_call _ w).
  destruct (fromExternal (this w) (msg_sender env) q proof) as [hq|] eqn:Hq.
  2:{ rewrite (bind_revert _ _ _ _ _ (FHE_fromExternal_revert env q proof w1 Hq)).
      eexists; split; [ reflexivity |].
      repeat split.
      exists [CallFromExternal u proof; CallFromExternal q proof]; split.
      - cbn. by rewrite <- app_assoc.
      - repeat constructor; apply Hfe. }
  rewrite (bind_ok _ _ _ _ _ (FHE_fromExternal_ok env q proof w1 hq Hq)).
  set (w2 := record_call _ w1).
  destruct (fromExternal (this w) (msg_sender env) a proof) as [ha|] eqn:Ha.
  { destruct Hnone as [? | [? | ?]]; discriminate. }
  rewrite (bind_revert _ _ _ _ _ (FHE_fromExternal_revert env a proof w2 Ha)).
  eexists; split; [ reflexivity |].
  repeat split.
  exists [CallFromExternal u proof; CallFromExternal q proof; CallFromExternal a proof].
  split.
  - cbn. by rewrite <- !app_assoc.
  - repeat constructor; apply Hfe.
Qed.

(** The three ways a call can go. *)
Lemma addPurchase_cases env item u q a proof w :
  (invalid_item item
   ∧ addPurchase env item u q a proof w = (Revert InvalidItem, w))
  ∨ (¬ invalid_item item
     ∧ ∃ w', addPurchase env item u q a proof w = (Revert SchemeRevert, w')
             ∧ only_scheme_calls w w')
  ∨ (¬ invalid_item item
     ∧ ∃ hu hq ha,
         fromExternal (this w) (msg_sender env) u proof = Some hu
         ∧ fromExternal (this w) (msg_sender env) q proof = Some hq
         ∧ fromExternal (this w) (msg_sender env) a proof = Some ha
         ∧ addPurchase env item u q a proof w
           = (Ok tt, appended_world env item u q a proof hu hq ha w)).
Proof.
  destruct (invalid_item_dec item) as [Hi | Hi].
  { left. split; [ done |]. by apply addPurchase_invalid. }
  right.
  destruct (fromExternal (this w) (msg_sender env) u proof) as [hu|] eqn:Hu;
    [| left; split; [ done |]; apply addPurchase_rejected; auto ].
  destruct (fromExternal (this w) (msg_sender env) q proof) as [hq|] eqn:Hq;
    [| left; split; [ done |]; apply addPurchase_rejected; auto ].
  destruct (fromExternal (this w) (msg_sender env) a proof) as [ha|] eqn:Ha;
    [| left; split; [ done |]; apply addPurchase_rejected; auto ].
  right. split; [ done |]. exists hu, hq, ha.
  repeat split; try done. by apply addPurchase_accepted.
Qed.

(** A call either leaves storage, grants and events alone, or is
    accepted. *)
Lemma addPurchase_world env item u q a proof w :
  only_scheme_calls w (addPurchase env item u q a proof w).2
  ∨ ∃ hu hq ha,
      addPurchase env item u q a proof w
      = (Ok tt, appended_world env item u q a proof hu hq ha w).
Proof.
  destruct (addPurchase_cases env item u q a proof w)
    as [[_ E] | [[_ (w' & E & Hw)] | [_ (hu & hq & ha & _ & _ & _ & E)]]];
    rewrite E.
  - left. repeat split. exists []. by rewrite app_nil_r.
  - by left.
  - right. eauto.
Qed.

(** What a successful call tells. *)
Lemma addPurchase_ok_inv env item u q a proof w r w' :
  addPurchase env item u q a proof w = (Ok r, w') ->
  ¬ invalid_item item
  ∧ ∃ hu hq ha,
      fromExternal (this w) (msg_sender env) u proof = Some hu
      ∧ fromExternal (this w) (msg_sender env) q proof = Some hq
      ∧ fromExternal (this w) (msg_sender env) a proof = Some ha
      ∧ w' = appended_world env item u q a proof hu hq ha w.
Proof.
  intros Hrun.
  destruct (addPurchase_cases env item u q a proof w)
    as [[_ E] | [[_ (w'' & E & _)] | [Hi (hu & hq & ha & Hu & Hq & Ha & E)]]];
    rewrite E in Hrun; try discriminate.
  split; [ done |]. exists hu, hq, ha. repeat split; try done. congruence.
Qed.

(** What a reverted call tells. *)
Lemma addPurchase_revert_inv env item u q a proof w e w' :
  addPurchase env item u q a proof w = (Revert e, w') ->
  (e = InvalidItem ∧ invalid_item item ∧ w' = w)
  ∨ (e = SchemeRevert ∧ ¬ invalid_item item ∧ only_scheme_calls w w').
Proof.
  intros Hrun.
  destruct (addPurchase_cases env item u q a proof w)
    as [[Hi E] | [[Hi (w'' & E & Hw)] | [_ (hu & hq & ha & _ & _ & _ & E)]]];
    rewrite E in Hrun; try discriminate.
  - left. by simplify_eq.
  - right. by simplify_eq.
Qed.

End Execution.

(** ** Reading the store *)

Section Reads.

Lemma getPurchaseCount_eq merchant w :
  getPurchaseCount merchant w = (Ok (count_of merchant w), w).
Proof. reflexivity. Qed.

(** [getPurchase] is the bounds-checked lookup; the array panic behind the
    check is never reached. *)
Lemma getPurchase_eq merchant index w :
  getPurchase merchant index w
  = (match purchasesOf merchant w !! N.to_nat index with
     | Some p => Ok (userId p, item p, quantity p, amount p, timestamp p)
     | None => Revert InvalidIndex
     end, w).
Proof.
  unfold getPurchase.
  rewrite (bind_ok _ _ _ _ _ (length_of_ok _ _)).
  destruct (N.leb_spec (N.of_nat (length (purchasesOf merchant w))) index) as [Hle | Hlt].
  - rewrite (proj2 (lookup_ge_None _ _)) by lia. reflexivity.
  - destruct (lookup_lt_is_Some_2 (purchasesOf merchant w) (N.to_nat index)) as [p Hp];
      [ lia |].
    unfold bind, at_index. by rewrite Hp.
Qed.

Lemma lookup_count_None merchant index w :
  purchasesOf merchant w !! N.to_nat index = None <-> count_of merchant w <= index.
Proof. unfold count_of. rewrite lookup_ge_None. lia. Qed.

Lemma lookup_count_Some merchant index w :
  is_Some (purchasesOf merchant w !! N.to_nat index) <-> index < count_of merchant w.
Proof. unfold count_of. rewrite lookup_lt_is_Some. lia. Qed.

Lemma getPurchase_InvalidIndex merchant index w :
  (getPurchase merchant index w).1 = Revert InvalidIndex
  <-> count_of merchant w <= index.
Proof.
  rewrite getPurchase_eq, <- lookup_count_None. cbn [fst].
  destruct (purchasesOf merchant w !! N.to_nat index); split; congruence.
Qed.

Lemma getPurchase_is_ok merchant index w :
  is_ok (getPurchase merchant index w).1 = true <-> index < count_of merchant w.
Proof.
  rewrite getPurchase_eq, <- lookup_count_Some. cbn [fst].
  destruct (purchasesOf merchant w !! N.to_nat index); cbn; split;
    eauto || congruence || (by intros []).
Qed.

End Reads.

(** ** The ledger after an accepted call *)

Section Appended.

Lemma purchasesOf_appended_owner env item u q a proof hu hq ha w :
  purchasesOf (msg_sender env) (appended_world env item u q a proof hu hq ha w)
  = purchasesOf (msg_sender env) w ++ [new_purchase env item hu hq ha].
Proof. unfold purchasesOf at 1. cbn. by rewrite lookup_insert_eq. Qed.

Lemma purchasesOf_appended_other env item u q a proof hu hq ha w o :
  o ≠ msg_sender env ->
  purchasesOf o (appended_world env item u q a proof hu hq ha w) = purchasesOf o w.
Proof. intros Hne. unfold purchasesOf. cbn. by rewrite lookup_insert_ne. Qed.

Lemma count_appended_owner env item u q a proof hu hq ha w :
  count_of (msg_sender env) (appended_world env item u q a proof hu hq ha w)
  = count_of (msg_sender env) w + 1.
Proof.
  unfold count_of. rewrite purchasesOf_appended_owner, length_app. cbn. lia.
Qed.

Lemma grants_appended env item u q a proof hu hq ha w :
  grants (appended_world env item u q a proof hu hq ha w)
  = grants w ∪ record_grants (this w) (msg_sender env) hu hq ha.
Proof. cbn. unfold grant, record_grants. set_solver. Qed.

Lemma elem_of_record_grants self sender hu hq ha h principal :
  (h, principal) ∈ record_grants self sender hu hq ha
  <-> (h = hu ∨ h = hq ∨ h = ha) ∧ (principal = self ∨ principal = sender).
Proof.
  unfold record_grants. rewrite !elem_of_union, !elem_of_singleton.
  naive_solver.
Qed.

End Appended.

(** ** Sequences of calls *)

Section Runs.
Context `{EncryptionScheme}.

Lemma run_cons op ops w : run (op :: ops) w = run ops (exec op w).
Proof. reflexivity. Qed.

Lemma run_app ops ops' w : run (ops ++ ops') w = run ops' (run ops w).
Proof. unfold run. apply foldl_app. Qed.

Lemma announced_app owner l l' :
  announced owner (l ++ l') = announced owner l ++ announced owner l'.
Proof.
  induction l as [| [merchant index it ts] l IH]; [ done |].
  cbn. rewrite IH. by case_bool_decide.
Qed.

(** One call of [addPurchase] under the runtime: either it reverts and the
    ledger is kept, or it is accepted. *)
Lemma exec_addPurchase env item u q a proof w :
  (is_ok (addPurchase env item u q a proof w).1 = false
   ∧ exec (OpAddPurchase env item u q a proof) w = w)
  ∨ (is_ok (addPurchase env item u q a proof w).1 = true
     ∧ ∃ hu hq ha,
         exec (OpAddPurchase env item u q a proof) w
         = appended_world env item u q a proof hu hq ha w).
Proof.
  unfold exec, transact.
  destruct (addPurchase_cases env item u q a proof w)
    as [[_ E] | [[_ (w' & E & _)] | [_ (hu & hq & ha & _ & _ & _ & E)]]];
    rewrite E; cbn [fst snd is_ok].
  - by left.
  - by left.
  - right. split; [ done |]. by exists hu, hq, ha.
Qed.

Lemma exec_this op w : this (exec op w) = this w.
Proof.
  destruct op as [env item u q a proof | merchant | merchant index].
  - destruct (exec_addPurchase env item u q a proof w)
      as [[_ ->] | [_ (hu & hq & ha & ->)]]; done.
  - done.
  - unfold exec, transact. rewrite getPurchase_eq.
    by destruct (purchasesOf merchant w !! N.to_nat index).
Qed.

Lemma exec_view_getPurchase merchant index w :
  exec (OpGetPurchase merchant index) w = w.
Proof.
  unfold exec, transact. rewrite getPurchase_eq.
  by destruct (purchasesOf merchant w !! N.to_nat index).
Qed.

(** What one call does to the records and to the announced indices of
    [owner]. *)
Lemma exec_step owner op w :
  ∃ k, purchasesOf owner (exec op w) = purchasesOf owner w ++ k
       ∧ length k = (if appends_for owner op w then 1 else 0)%nat
       ∧ announced owner (logs (exec op w))
         = announced owner (logs w)
           ++ (if appends_for owner op w then [count_of owner w] else []).
Proof.
  destruct op as [env item u q a proof | merchant | merchant index].
  - cbn [appends_for].
    destruct (exec_addPurchase env item u q a proof w)
      as [[-> ->] | [-> (hu & hq & ha & ->)]].
    + rewrite andb_false_r. exists []. by rewrite !app_nil_r.
    + rewrite andb_true_r. cbn [logs appended_world].
      rewrite announced_app. cbn [announced].
      case_bool_decide as Hs.
      * subst owner. exists [new_purchase env item hu hq ha].
        by rewrite purchasesOf_appended_owner.
      * exists []. rewrite purchasesOf_appended_other by done.
        by rewrite !app_nil_r.
  - exists []. by rewrite !app_nil_r.
  - rewrite exec_view_getPurchase. exists []. by rewrite !app_nil_r.
Qed.

(** The same along a sequence: records are only added at the end, one per
    successful append of the owner, and the announced indices continue the
    count. *)
Lemma run_records owner ops : ∀ w,
  ∃ k, purchasesOf owner (run ops w) = purchasesOf owner w ++ k
       ∧ length k = appended owner ops w
       ∧ announced owner (logs (run ops w))
         = announced owner (logs w)
           ++ (N.of_nat <$> seq (length (purchasesOf owner w)) (appended owner ops w)).
Proof.
  induction ops as [| op ops IH]; intros w.
  - exists []. cbn. by rewrite !app_nil_r.
  - rewrite run_cons. cbn [appended].
    destruct (exec_step owner op w) as (k1 & Hk1 & Hlen1 & Hann1).
    destruct (IH (exec op w)) as (k2 & Hk2 & Hlen2 & Hann2).
    exists (k1 ++ k2). split; [| split ].
    + by rewrite Hk2, Hk1, app_assoc.
    + rewrite length_app. lia.
    + rewrite Hann2, Hann1, Hk1, length_app, Hlen1, <- app_assoc. f_equal.
      destruct (appends_for owner op w); cbn [app Nat.add].
      * rewrite Nat.add_1_r. reflexivity.
      * by rewrite Nat.add_0_r.
Qed.

Lemma purchasesOf_initial self owner : purchasesOf owner (initial self) = [].
Proof. unfold purchasesOf. cbn. by rewrite lookup_empty. Qed.

(** From deployment: as many records as successful appends, announced as
    0, 1, 2, ... *)
Lemma count_of_run_initial self owner ops :
  count_of owner (run ops (initial self))
  = N.of_nat (appended owner ops (initial self)).
Proof.
  destruct (run_records owner ops (initial self)) as (k & Hk & Hlen & _).
  unfold count_of. by rewrite Hk, purchasesOf_initial, app_nil_l, Hlen.
Qed.

Lemma announced_run_initial self owner ops :
  announced owner (logs (run ops (initial self)))
  = N.of_nat <$> seq 0 (appended owner ops (initial self)).
Proof.
  destruct (run_records owner ops (initial self)) as (k & _ & _ & Hann).
  by rewrite Hann, purchasesOf_initial.
Qed.

Lemma NoDup_announced_run_initial self owner ops :
  NoDup (announced owner (logs (run ops (initial self)))).
Proof.
  rewrite announced_run_initial.
  apply NoDup_fmap_2; [ apply _ | apply NoDup_seq ].
Qed.

Lemma run_this ops : ∀ w, this (run ops w) = this w.
Proof.
  induction ops as [| op ops IH]; intros w; [ done |].
  by rewrite run_cons, IH, exec_this.
Qed.

Lemma grants_to_owners_initial self : grants_to_owners (initial self).
Proof. intros h principal Hin. cbn in Hin. set_solver. Qed.

Lemma grants_to_owners_appended env item u q a proof hu hq ha w :
  grants_to_owners w ->
  grants_to_owners (appended_world env item u q a proof hu hq ha w).
Proof.
  intros Hinv h principal Hin.
  rewrite grants_appended, elem_of_union, elem_of_record_grants in Hin.
  change (this (appended_world env item u q a proof hu hq ha w)) with (this w).
  destruct Hin as [Hold | [Hh [-> | ->]]]; [| by left |].
  - destruct (Hinv h principal Hold) as [-> | (p & Hp & Hhp)]; [ by left |].
    right. exists p. split; [| done ].
    destruct (decide (principal = msg_sender env)) as [-> | Hne].
    + rewrite purchasesOf_appended_owner. apply elem_of_app. by left.
    + by rewrite purchasesOf_appended_other.
  - right. exists (new_purchase env item hu hq ha). split; [| done ].
    rewrite purchasesOf_appended_owner. apply elem_of_app. right.
    by apply list_elem_of_singleton.
Qed.

Lemma grants_to_owners_exec op w :
  grants_to_owners w -> grants_to_owners (exec op w).
Proof.
  intros Hinv.
  destruct op as [env item u q a proof | merchant | merchant index].
  - destruct (exec_addPurchase env item u q a proof w)
      as [[_ ->] | [_ (hu & hq & ha & ->)]]; [ done |].
    by apply grants_to_owners_appended.
  - done.
  - by rewrite exec_view_getPurchase.
Qed.

Lemma grants_to_owners_run ops : ∀ w,
  grants_to_owners w -> grants_to_owners (run ops w).
Proof.
  induction ops as [| op ops IH]; intros w Hinv; [ done |].
  rewrite run_cons. by apply IH, grants_to_owners_exec.
Qed.

End Runs.

(** ** The listing *)

Section Listing.
Import PurchaseRecords.

(** The loop ends within [capped] steps and has then pushed
    [purchaseCount - 1 - i] for each [i] below [capped], in this order. *)
Lemma indices_loop_spec purchaseCount capped fuel : ∀ (i : nat) (indices : list Z),
  (Z.to_nat capped - i <= fuel)%nat ->
  indices_loop fuel purchaseCount capped (Z.of_nat i) indices
  = Some (indices
          ++ ((fun j : nat => (purchaseCount - 1 - Z.of_nat j)%Z)
                <$> seq i (Z.to_nat capped - i))).
Proof.
  induction fuel as [| fuel IH]; intros i indices Hfuel.
  - cbn. destruct (Z.ltb_spec (Z.of_nat i) capped) as [Hlt | Hge]; [ lia |].
    replace (Z.to_nat capped - i)%nat with 0%nat by lia.
    cbn. by rewrite app_nil_r.
  - cbn [indices_loop].
    destruct (Z.ltb_spec (Z.of_nat i) capped) as [Hlt | Hge].
    + replace (Z.of_nat i + 1)%Z with (Z.of_nat (S i)) by lia.
      rewrite IH by lia.
      replace (Z.to_nat capped - i)%nat with (S (Z.to_nat capped - S i)) by lia.
      cbn [seq fmap list_fmap]. by rewrite <- app_assoc.
    + replace (Z.to_nat capped - i)%nat with 0%nat by lia.
      cbn. by rewrite app_nil_r.
Qed.

Lemma promise_all_Forall2 {A B} (f : A -> LoadError + B) l l' :
  Forall2 (fun x y => f x = inr y) l l' -> promise_all f l = inr l'.
Proof.
  induction 1 as [| x y l l' Hxy _ IH]; [ done |].
  cbn. by rewrite Hxy, IH.
Qed.

(** Reading a stored record gives its row. *)
Lemma load_row_stored owner w (i : nat) p :
  purchasesOf owner w !! i = Some p ->
  load_row owner w (Z.of_nat i) = inr (row_of (Z.of_nat i) p).
Proof.
  intros Hp. unfold load_row.
  destruct (Z.ltb_spec (Z.of_nat i) 0) as [Hneg | _]; [ lia |].
  unfold readContract. rewrite getPurchase_eq. cbn [fst].
  replace (N.to_nat (Z.to_N (Z.of_nat i))) with i by lia.
  by rewrite Hp.
Qed.

Lemma length_most_recent k owner w :
  length (most_recent k owner w) = (k `min` length (purchasesOf owner w))%nat.
Proof.
  unfold most_recent. by rewrite length_take, length_reverse, length_imap.
Qed.

Lemma lookup_most_recent k owner w (j : nat) row :
  most_recent k owner w !! j = Some row ->
  (j < k)%nat ∧ (j < length (purchasesOf owner w))%nat
  ∧ ∃ p, purchasesOf owner w !! (length (purchasesOf owner w) - S j)%nat = Some p
         ∧ row = row_of (Z.of_nat (length (purchasesOf owner w) - S j)) p.
Proof.
  unfold most_recent. intros Hrow.
  apply lookup_take_Some in Hrow as [Hrow Hjk].
  pose proof (lookup_lt_Some _ _ _ Hrow) as Hlt.
  rewrite length_reverse, length_imap in Hlt.
  rewrite reverse_lookup in Hrow by (by rewrite length_imap).
  rewrite length_imap, list_lookup_imap in Hrow.
  destruct (purchasesOf owner w !! _) as [p|] eqn:Hp; [| done ].
  cbn in Hrow. injection Hrow as <-. eauto.
Qed.

(** What [load] leaves in the view of a connected wallet. *)
Lemma load_connected owner w v :
  load (Some owner) w v
  = Some {| isLoading := false; error := None;
            count := Z.of_N (count_of owner w);
            rows := most_recent 200 owner w |}.
Proof.
  unfold load, readContract. rewrite getPurchaseCount_eq. cbn [fst].
  set (n := count_of owner w).
  set (capped := if (MAX_TO_LOAD <? Z.of_N n)%Z then MAX_TO_LOAD else Z.of_N n).
  pose proof (indices_loop_spec (Z.of_N n) capped (Z.to_nat capped) 0 []) as Hloop.
  change (Z.of_nat 0) with 0%Z in Hloop.
  rewrite Hloop by lia. clear Hloop.
  rewrite app_nil_l, Nat.sub_0_r.
  assert (Hcap : Z.to_nat capped = (200 `min` length (purchasesOf owner w))%nat).
  { subst capped n. unfold MAX_TO_LOAD, count_of.
    destruct (Z.ltb_spec 200 (Z.of_N (N.of_nat (length (purchasesOf owner w))))); lia. }
  rewrite (promise_all_Forall2 _ _ (most_recent 200 owner w)); [ done |].
  apply Forall2_same_length_lookup_2.
  { by rewrite length_fmap, length_seq, length_most_recent. }
  intros j idx row Hidx Hrow.
  apply list_lookup_fmap_Some in Hidx as (j' & -> & Hj').
  apply lookup_seq in Hj' as [-> Hj].
  apply lookup_most_recent in Hrow as (_ & Hlt & p & Hp & ->).
  replace (Z.of_N n - 1 - Z.of_nat (0 + j))%Z
    with (Z.of_nat (length (purchasesOf owner w) - S j)).
  - by apply load_row_stored.
  - subst n. unfold count_of. lia.
Qed.

End Listing.

(** ** Properties of the write path *)

Section WritePath.
Context `{EncryptionScheme}.

(** C1 (amended): [addPurchase] fails with [InvalidItem] if and only if the
    byte length of the item is 0 or greater than 64.  Otherwise, when the
    encryption scheme accepts the three external inputs, the call succeeds,
    assigns the next index of the caller (the count before the call),
    stores the record at that index at the end of the caller's sequence,
    and emits [PurchaseAdded] with the caller, that index, the item and the
    timestamp stored in the record ([uint64(block.timestamp)]). *)
Theorem addPurchase_checks_item_then_appends env item u q a proof w :
  let owner := msg_sender env in
  let r := addPurchase env item u q a proof w in
  (r.1 = Revert InvalidItem <-> invalid_item item)
  ∧ (∀ hu hq ha,
       ¬ invalid_item item ->
       fromExternal (this w) owner u proof = Some hu ->
       fromExternal (this w) owner q proof = Some hq ->
       fromExternal (this w) owner a proof = Some ha ->
       let p := new_purchase env item hu hq ha in
       r.1 = Ok tt
       ∧ count_of owner r.2 = count_of owner w + 1
       ∧ purchasesOf owner r.2 !! N.to_nat (count_of owner w) = Some p
       ∧ purchasesOf owner r.2 = purchasesOf owner w ++ [p]
       ∧ logs r.2
         = logs w ++ [PurchaseAdded owner (count_of owner w) item (timestamp p)]).
Proof.
  intros owner r. split.
  - subst r.
    destruct (addPurchase_cases env item u q a proof w)
      as [[Hi E] | [[Hi (w' & E & _)] | [Hi (hu & hq & ha & _ & _ & _ & E)]]];
      rewrite E; cbn [fst]; split; intros; done.
  - intros hu hq ha Hi Hu Hq Ha p. subst r owner.
    rewrite (addPurchase_accepted _ _ _ _ _ _ _ _ _ _ Hi Hu Hq Ha). cbn [fst snd].
    split; [ done |]. split; [ apply count_appended_owner |].
    rewrite purchasesOf_appended_owner.
    split; [ apply lookup_last_pushed |]. done.
Qed.

(** C3: a successful [addPurchase] grants each of the three handles of the
    stored record to the contract itself and to the caller, and to nobody
    else: the grants after the call are those before it and these six, and
    the grant calls made are these six, in the order of the source. *)
Theorem addPurchase_grants_contract_and_owner env item u q a proof w w' :
  addPurchase env item u q a proof w = (Ok tt, w') ->
  ∃ hu hq ha,
    last (purchasesOf (msg_sender env) w') = Some (new_purchase env item hu hq ha)
    ∧ grants w' = grants w ∪ record_grants (this w) (msg_sender env) hu hq ha
    ∧ (∀ h principal,
         (h, principal) ∈ grants w' ∖ grants w ->
         (h = hu ∨ h = hq ∨ h = ha)
         ∧ (principal = this w ∨ principal = msg_sender env))
    ∧ (∀ h, h = hu ∨ h = hq ∨ h = ha ->
            isGranted h (this w) w' = true
            ∧ isGranted h (msg_sender env) w' = true)
    ∧ calls w'
      = calls w ++ write_calls (this w) (msg_sender env) u q a proof hu hq ha.
Proof.
  intros Hrun.
  apply addPurchase_ok_inv in Hrun as (_ & hu & hq & ha & _ & _ & _ & ->).
  exists hu, hq, ha.
  split; [ by rewrite purchasesOf_appended_owner, last_snoc |].
  split; [ apply grants_appended |].
  split; [| split; [| done ] ].
  - intros h principal [Hin Hnew]%elem_of_difference.
    rewrite grants_appended, elem_of_union in Hin.
    destruct Hin as [Hold | Hin]; [ done |].
    by apply elem_of_record_grants.
  - intros h Hh. unfold isGranted.
    rewrite !bool_decide_eq_true, grants_appended, !elem_of_union,
      !elem_of_record_grants.
    split; right; auto.
Qed.

(** C4: with an invalid item [addPurchase] raises [InvalidItem] at once: the
    world, trace of external calls included, is as before, so no call to
    [FHE.fromExternal] (nor any other) was made.  Whenever [addPurchase]
    fails, storage, grants and event log at the point of failure are those
    before the call (at most calls to [FHE.fromExternal] were made), and
    the reverted transaction leaves the ledger as it was. *)
Theorem addPurchase_fails_before_any_effect env item u q a proof w :
  (invalid_item item ->
   addPurchase env item u q a proof w = (Revert InvalidItem, w))
  ∧ (∀ e w',
       addPurchase env item u q a proof w = (Revert e, w') ->
       purchasesByMerchant w' = purchasesByMerchant w
       ∧ grants w' = grants w
       ∧ logs w' = logs w
       ∧ only_scheme_calls w w'
       ∧ transact (addPurchase env item u q a proof) w = (Revert e, w)).
Proof.
  split; [ apply addPurchase_invalid |].
  intros e w' Hrun.
  assert (Hw : only_scheme_calls w w').
  { apply addPurchase_revert_inv in Hrun as [(_ & _ & ->) | (_ & _ & Hw)];
      [| done ].
    repeat split. exists []. by rewrite app_nil_r. }
  destruct Hw as (Hthis & Hst & Hgr & Hlog & Hcalls).
  repeat split; try done.
  unfold transact. by rewrite Hrun.
Qed.

(** C8: a successful [addPurchase] changes the records of its caller only:
    for every other owner the count and the result of [getPurchase] at
    every index are as before. *)
Theorem addPurchase_leaves_other_owners env item u q a proof w w' o' :
  addPurchase env item u q a proof w = (Ok tt, w') ->
  o' ≠ msg_sender env ->
  purchasesOf o' w' = purchasesOf o' w
  ∧ (getPurchaseCount o' w').1 = (getPurchaseCount o' w).1
  ∧ ∀ i, (getPurchase o' i w').1 = (getPurchase o' i w).1.
Proof.
  intros Hrun Hne.
  apply addPurchase_ok_inv in Hrun as (_ & hu & hq & ha & _ & _ & _ & ->).
  pose proof (purchasesOf_appended_other env item u q a proof hu hq ha w o' Hne) as E.
  split; [ done |]. split.
  - rewrite !getPurchaseCount_eq. unfold count_of. by rewrite E.
  - intros i. rewrite !getPurchase_eq. cbn [fst]. by rewrite E.
Qed.

(** C9 (amended): a successful [addPurchase] returns no value.  The index
    it assigned, the caller's count before the call, is carried by the
    [PurchaseAdded] event it emits last; after the call the count is one
    more and [getPurchase] accepts that index. *)
Theorem addPurchase_announces_new_index env item u q a proof w (r : unit) w' :
  addPurchase env item u q a proof w = (Ok r, w') ->
  r = tt
  ∧ last (logs w')
    = Some (PurchaseAdded (msg_sender env) (count_of (msg_sender env) w) item
              (uint64 (block_timestamp env)))
  ∧ count_of (msg_sender env) w' = count_of (msg_sender env) w + 1
  ∧ is_ok (getPurchase (msg_sender env) (count_of (msg_sender env) w) w').1 = true.
Proof.
  intros Hrun. destruct r.
  apply addPurchase_ok_inv in Hrun as (_ & hu & hq & ha & _ & _ & _ & ->).
  split; [ done |].
  split; [ cbn [logs appended_world]; apply last_snoc |].
  split; [ apply count_appended_owner |].
  apply getPurchase_is_ok. rewrite count_appended_owner. lia.
Qed.

End WritePath.

(** ** Properties of the record store *)

Section RecordStore.
Context `{EncryptionScheme}.

(** C2: along any sequence of calls the records of an owner are only
    appended to (the sequence at any moment is a prefix of the sequence at
    any later moment), and from the deployed ledger the indices assigned to
    the owner by its [N] successful appends are 0, 1, ..., N-1 in this
    order, whatever other owners append in between; the count is [N] and
    exactly the indices below it are readable. *)
Theorem records_append_only_and_dense (self owner : address) (ops ops' : list Op) :
  let w := run ops (initial self) in
  let w' := run ops' w in
  let n := appended owner ops (initial self) in
  purchasesOf owner w `prefix_of` purchasesOf owner w'
  ∧ announced owner (logs w) = N.of_nat <$> seq 0 n
  ∧ NoDup (announced owner (logs w))
  ∧ count_of owner w = N.of_nat n
  ∧ ∀ i, is_ok (getPurchase owner i w).1 = true <-> i < N.of_nat n.
Proof.
  intros w w' n.
  destruct (run_records owner ops' w) as (k' & Hk' & _).
  pose proof (count_of_run_initial self owner ops) as Hcount.
  split; [ by exists k' |].
  split; [ apply announced_run_initial |].
  split; [ apply NoDup_announced_run_initial |].
  split; [ exact Hcount |].
  intros i. subst w n. by rewrite getPurchase_is_ok, Hcount.
Qed.

(** C5: [getPurchase] fails with [InvalidIndex] if and only if the index is
    at least the count of the owner (the value [getPurchaseCount] returns);
    otherwise it returns the fields of the record stored at the index, in
    the order userId, item, quantity, amount, timestamp.  It fails in no
    other way and never changes the ledger. *)
Theorem getPurchase_checks_index merchant index w :
  ((getPurchase merchant index w).1 = Revert InvalidIndex
   <-> count_of merchant w <= index)
  ∧ (getPurchaseCount merchant w).1 = Ok (count_of merchant w)
  ∧ (getPurchase merchant index w).2 = w
  ∧ (getPurchase merchant index w).1
    = match purchasesOf merchant w !! N.to_nat index with
      | Some p => Ok (userId p, item p, quantity p, amount p, timestamp p)
      | None => Revert InvalidIndex
      end
  ∧ (is_Some (purchasesOf merchant w !! N.to_nat index)
     <-> index < count_of merchant w).
Proof.
  split; [ apply getPurchase_InvalidIndex |].
  split; [ done |].
  rewrite getPurchase_eq. cbn [fst snd].
  split; [ done |]. split; [ done |].
  apply lookup_count_Some.
Qed.

(** C6: [getPurchaseCount] never fails and changes nothing; it returns 0
    exactly for an owner without records; on the ledger reached from
    deployment by any sequence of calls it returns the number of successful
    [addPurchase] calls of the owner; and [getPurchase] accepts exactly the
    indices below it, so that a non-zero count is one plus the highest
    accepted index. *)
Theorem getPurchaseCount_counts_appends (self o : address) (ops : list Op) :
  getPurchaseCount o (run ops (initial self))
  = (Ok (N.of_nat (appended o ops (initial self))), run ops (initial self))
  ∧ ∀ w, ∃ n,
      getPurchaseCount o w = (Ok n, w)
      ∧ (n = 0 <-> purchasesOf o w = [])
      ∧ (∀ i, is_ok (getPurchase o i w).1 = true <-> i < n)
      ∧ (n = 0 ∨ is_ok (getPurchase o (n - 1) w).1 = true)
      ∧ is_ok (getPurchase o n w).1 = false.
Proof.
  split.
  - rewrite getPurchaseCount_eq. do 2 f_equal. apply count_of_run_initial.
  - intros w. exists (count_of o w).
    split; [ apply getPurchaseCount_eq |].
    split.
    { unfold count_of. destruct (purchasesOf o w); cbn; split; (lia || done). }
    split; [ intros i; apply getPurchase_is_ok |].
    split.
    + destruct (N.eq_dec (count_of o w) 0) as [Hz | Hnz]; [ by left | right ].
      apply getPurchase_is_ok. lia.
    + apply not_true_is_false. rewrite getPurchase_is_ok. lia.
Qed.

(** C10: the owner of an appended record is the caller.  Whatever the call
    and the ledger, [addPurchase] leaves the records of every principal
    other than [msg.sender] untouched, adds grants for the contract and for
    [msg.sender] only, and announces only [msg.sender] as merchant.  On every
    ledger reached from deployment the records of an owner are as many as
    the owner's own successful appends, and every grant is held by the
    contract or by the owner of a record carrying the handle. *)
Theorem addPurchase_appends_for_caller_only env item u q a proof w
    (self : address) (ops : list Op) :
  let r := addPurchase env item u q a proof w in
  (∀ o, o ≠ msg_sender env -> purchasesOf o r.2 = purchasesOf o w)
  ∧ (∀ h principal,
       (h, principal) ∈ grants r.2 ->
       (h, principal) ∈ grants w
       ∨ principal = this w ∨ principal = msg_sender env)
  ∧ (∀ e, e ∈ logs r.2 ->
          e ∈ logs w ∨ ∃ index ts, e = PurchaseAdded (msg_sender env) index item ts)
  ∧ (∀ o, count_of o (run ops (initial self))
          = N.of_nat (appended o ops (initial self)))
  ∧ grants_to_owners (run ops (initial self)).
Proof.
  intros r. subst r.
  split; [| split; [| split; [| split ] ] ].
  - intros o Hne.
    destruct (addPurchase_world env item u q a proof w)
      as [(_ & Hst & _) | (hu & hq & ha & ->)].
    + unfold purchasesOf. by rewrite Hst.
    + by apply purchasesOf_appended_other.
  - intros h principal Hin.
    destruct (addPurchase_world env item u q a proof w)
      as [(_ & _ & Hgr & _) | (hu & hq & ha & E)].
    + left. by rewrite <- Hgr.
    + rewrite E in Hin. cbn [snd] in Hin.
      rewrite grants_appended, elem_of_union, elem_of_record_grants in Hin.
      destruct Hin as [Hold | [_ Hp]]; auto.
  - intros e Hin.
    destruct (addPurchase_world env item u q a proof w)
      as [(_ & _ & _ & Hlog & _) | (hu & hq & ha & E)].
    + left. by rewrite <- Hlog.
    + rewrite E in Hin. cbn [snd logs appended_world] in Hin.
      apply elem_of_app in Hin as [Hold | ->%list_elem_of_singleton]; eauto.
  - intros o. apply count_of_run_initial.
  - apply grants_to_owners_run, grants_to_owners_initial.
Qed.

End RecordStore.

(** ** Properties of the listing *)

Section ReadPath.
Import PurchaseRecords.

(** C7 (amended): the listing of the client takes no [maxCount].  For a
    connected wallet [load] always completes without error and sets the
    rows to the min(count, 200) most recent records of the owner, highest
    index first: what [listRecent(owner, 200)] describes.  Each row carries
    the index, the item, the timestamp and the three handles as stored (no
    ciphertext is resolved); there are never more than 200 rows; when the
    owner has at most 200 records, all of them are listed. *)
Theorem load_lists_most_recent_200 owner w v :
  ∃ v',
    load (Some owner) w v = Some v'
    ∧ isLoading v' = false
    ∧ error v' = None
    ∧ count v' = Z.of_N (count_of owner w)
    ∧ rows v' = spec_listRecent owner 200 w
    ∧ rows v'
      = take 200 (reverse (imap (fun i p => row_of (Z.of_nat i) p)
                             (purchasesOf owner w)))
    ∧ length (rows v') = (200 `min` length (purchasesOf owner w))%nat
    ∧ (length (rows v') <= 200)%nat.
Proof.
  eexists. split; [ apply load_connected |]. cbn [isLoading error count rows].
  repeat split.
  - apply length_most_recent.
  - rewrite length_most_recent. lia.
Qed.

End ReadPath.

(** ** The properties at work on a sample ledger *)

Lemma coffee_is_valid : ¬ invalid_item "Coffee".
Proof. intros [E | E]; vm_compute in E; discriminate. Defined.

(** One accepted call on the fresh ledger: index 0 is assigned, stored and
    announced. *)
Lemma addPurchase_checks_item_then_appends_witness :
  let r := @addPurchase sample_scheme alice_env "Coffee" 11 12 13 some_proof
             (initial deployed) in
  let p := new_purchase alice_env "Coffee" 11 12 13 in
  r.1 = Ok tt
  ∧ count_of alice r.2 = count_of alice (initial deployed) + 1
  ∧ purchasesOf alice r.2 !! N.to_nat (count_of alice (initial deployed)) = Some p
  ∧ purchasesOf alice r.2 = purchasesOf alice (initial deployed) ++ [p]
  ∧ logs r.2
    = logs (initial deployed)
      ++ [PurchaseAdded alice (count_of alice (initial deployed)) "Coffee" (timestamp p)].
Proof.
  apply (proj2 (@addPurchase_checks_item_then_appends sample_scheme alice_env
                  "Coffee" 11 12 13 some_proof (initial deployed)) 11 12 13);
    [ exact coffee_is_valid | reflexivity .. ].
Defined.

(** A valid item with a proof the scheme rejects: the call reverts, not with
    [InvalidItem], and nothing is stored or announced. *)
Lemma addPurchase_valid_item_rejected_proof :
  let r := @addPurchase sample_scheme alice_env "Coffee" 11 12 13 []
             (initial deployed) in
  ¬ invalid_item "Coffee"
  ∧ r.1 = Revert SchemeRevert
  ∧ r.1 ≠ Ok tt
  ∧ purchasesOf alice r.2 = []
  ∧ logs r.2 = [].
Proof.
  cbv zeta. split; [ exact coffee_is_valid |].
  split; [ vm_compute; reflexivity |].
  split; [ vm_compute; discriminate |].
  split; vm_compute; reflexivity.
Qed.

Lemma addPurchase_grants_contract_and_owner_witness :
  ∃ hu hq ha,
    last (purchasesOf alice one_record) = Some (new_purchase alice_env "Coffee" hu hq ha)
    ∧ grants one_record
      = grants (initial deployed) ∪ record_grants deployed alice hu hq ha
    ∧ (∀ h principal,
         (h, principal) ∈ grants one_record ∖ grants (initial deployed) ->
         (h = hu ∨ h = hq ∨ h = ha) ∧ (principal = deployed ∨ principal = alice))
    ∧ (∀ h, h = hu ∨ h = hq ∨ h = ha ->
            isGranted h deployed one_record = true
            ∧ isGranted h alice one_record = true)
    ∧ calls one_record
      = calls (initial deployed)
        ++ write_calls deployed alice 11 12 13 some_proof hu hq ha.
Proof.
  apply (@addPurchase_grants_contract_and_owner sample_scheme alice_env
           "Coffee" 11 12 13 some_proof (initial deployed) one_record).
  vm_compute. reflexivity.
Defined.

(** An empty item, and a valid item with a rejected proof, on a ledger that
    holds a record. *)
Lemma addPurchase_fails_before_any_effect_witness :
  @addPurchase sample_scheme alice_env "" 11 12 13 some_proof one_record
  = (Revert InvalidItem, one_record)
  ∧ let w' := (@addPurchase sample_scheme alice_env "Tea" 21 22 23 [] one_record).2 in
    purchasesByMerchant w' = purchasesByMerchant one_record
    ∧ grants w' = grants one_record
    ∧ logs w' = logs one_record
    ∧ only_scheme_calls one_record w'
    ∧ transact (@addPurchase sample_scheme alice_env "Tea" 21 22 23 []) one_record
      = (Revert SchemeRevert, one_record).
Proof.
  split.
  - apply (proj1 (@addPurchase_fails_before_any_effect sample_scheme alice_env
                    "" 11 12 13 some_proof one_record)).
    left. vm_compute. reflexivity.
  - apply (proj2 (@addPurchase_fails_before_any_effect sample_scheme alice_env
                    "Tea" 21 22 23 [] one_record)).
    vm_compute. reflexivity.
Defined.

Lemma addPurchase_leaves_other_owners_witness :
  purchasesOf alice two_owners = purchasesOf alice one_record
  ∧ (getPurchaseCount alice two_owners).1 = (getPurchaseCount alice one_record).1
  ∧ ∀ i, (getPurchase alice i two_owners).1 = (getPurchase alice i one_record).1.
Proof.
  apply (@addPurchase_leaves_other_owners sample_scheme bob_env
           "Bread" 41 42 43 some_proof one_record two_owners alice).
  - vm_compute. reflexivity.
  - vm_compute. discriminate.
Defined.

Lemma addPurchase_announces_new_index_witness :
  tt = tt
  ∧ last (logs two_owners)
    = Some (PurchaseAdded bob (count_of bob one_record) "Bread"
              (uint64 (block_timestamp bob_env)))
  ∧ count_of bob two_owners = count_of bob one_record + 1
  ∧ is_ok (getPurchase bob (count_of bob one_record) two_owners).1 = true.
Proof.
  apply (@addPurchase_announces_new_index sample_scheme bob_env
           "Bread" 41 42 43 some_proof one_record tt two_owners).
  vm_compute. reflexivity.
Defined.

(** Two successful calls return the same (empty) value although they were
    assigned the indices 0 and 1: the returned value does not tell the
    index. *)
Lemma addPurchase_returns_no_index :
  let r0 := @addPurchase sample_scheme alice_env "Coffee" 11 12 13 some_proof
              (initial deployed) in
  let r1 := @addPurchase sample_scheme alice_env "Tea" 21 22 23 some_proof r0.2 in
  r0.1 = Ok tt
  ∧ r1.1 = Ok tt
  ∧ announced alice (logs r0.2) = [0]
  ∧ announced alice (logs r1.2) = [0; 1]
  ∧ ¬ ∃ index_of : unit -> N,
        ∀ env item u q a proof w r w',
          @addPurchase sample_scheme env item u q a proof w = (Ok r, w') ->
          index_of r = count_of (msg_sender env) w.
Proof.
  cbv zeta.
  do 4 (split; [ vm_compute; reflexivity |]).
  intros [index_of Hret].
  assert (E0 : @addPurchase sample_scheme alice_env "Coffee" 11 12 13 some_proof
                 (initial deployed) = (Ok tt, one_record))
    by (vm_compute; reflexivity).
  assert (E1 : @addPurchase sample_scheme alice_env "Tea" 21 22 23 some_proof
                 one_record = (Ok tt, @run sample_scheme [add_tea] one_record))
    by (vm_compute; reflexivity).
  apply Hret in E0. apply Hret in E1.
  rewrite E0 in E1. vm_compute in E1. discriminate.
Qed.

(** With three records stored the listing shows all three; the two rows that
    [listRecent(owner, 2)] asks for are not what it returns. *)
Lemma load_three_records_lists_three :
  let row i it ts u q a :=
    {| PurchaseRecords.index := i; PurchaseRecords.item := it;
       PurchaseRecords.timestamp := ts; PurchaseRecords.userIdHandle := u;
       PurchaseRecords.quantityHandle := q; PurchaseRecords.amountHandle := a |} in
  PurchaseRecords.rows <$> PurchaseRecords.load (Some alice) three_records empty_view
  = Some [ row 2%Z "Milk" 1700000000%Z 31 32 33;
           row 1%Z "Tea" 1700000000%Z 21 22 23;
           row 0%Z "Coffee" 1700000000%Z 11 12 13 ]
  ∧ spec_listRecent alice 2 three_records
    = [ row 2%Z "Milk" 1700000000%Z 31 32 33;
        row 1%Z "Tea" 1700000000%Z 21 22 23 ]
  ∧ PurchaseRecords.rows <$> PurchaseRecords.load (Some alice) three_records empty_view
    ≠ Some (spec_listRecent alice 2 three_records).
Proof.
  cbv zeta. split; [ vm_compute; reflexivity |].
  split; [ vm_compute; reflexivity |].
  vm_compute. discriminate.
Qed.

Lemma addPurchase_appends_for_caller_only_witness :
  purchasesOf alice
    (@addPurchase sample_scheme bob_env "Bread" 41 42 43 some_proof one_record).2
  = purchasesOf alice one_record.
Proof.
  apply (proj1 (@addPurchase_appends_for_caller_only sample_scheme bob_env
                  "Bread" 41 42 43 some_proof one_record deployed [])).
  vm_compute. discriminate.
Defined.

(** The scenario of the tests: no record yet, then one. *)
Example no_record_yet :
  getPurchaseCount alice (initial deployed) = (Ok 0, initial deployed)
  ∧ (getPurchase alice 0 (initial deployed)).1 = Revert InvalidIndex.
Proof. split; vm_compute; reflexivity. Qed.

Example coffee_record :
  (getPurchaseCount alice one_record).1 = Ok 1
  ∧ (getPurchase alice 0 one_record).1 = Ok (11, "Coffee", 12, 13, 1700000000)
  ∧ (getPurchase alice 1 one_record).1 = Revert InvalidIndex
  ∧ (getPurchaseCount bob one_record).1 = Ok 0.
Proof. repeat split; vm_compute; reflexivity. Qed.

Example interleaved_indices :
  announced alice
    (logs (@run sample_scheme [add_coffee; add_bread; add_tea; add_bread; add_milk]
             (initial deployed)))
  = [0; 1; 2]
  ∧ announced bob
      (logs (@run sample_scheme [add_coffee; add_bread; add_tea; add_bread; add_milk]
               (initial deployed)))
    = [0; 1].
Proof. split; vm_compute; reflexivity. Qed.

(** ** More on the write path *)

Section Outcome.
Context `{EncryptionScheme}.

Lemma accepted_handles_Some self env u q a proof hu hq ha :
  accepted_handles self env u q a proof = Some (hu, hq, ha)
  <-> fromExternal self (msg_sender env) u proof = Some hu
      ∧ fromExternal self (msg_sender env) q proof = Some hq
      ∧ fromExternal self (msg_sender env) a proof = Some ha.
Proof.
  unfold accepted_handles.
  destruct (fromExternal self (msg_sender env) u proof),
    (fromExternal self (msg_sender env) q proof),
    (fromExternal self (msg_sender env) a proof); naive_solver.
Qed.


(** The result of a call, read off the item and the answers of the
    scheme. *)
Lemma addPurchase_result env item u q a proof w :
  (addPurchase env item u q a proof w).1
  = if (bytes_length item =? 0) || (64 <? bytes_length item)
    then Revert InvalidItem
    else match accepted_handles (this w) env u q a proof with
         | Some _ => Ok tt
         | None => Revert SchemeRevert
         end.
Proof.
  destruct (addPurchase_cases env item u q a proof w)
    as [[Hi E] | [[Hi (w' & E & _)] | [Hi (hu & hq & ha & Hu & Hq & Ha & E)]]].
  - rewrite E. apply invalid_item_test in Hi. by rewrite Hi.
  - rewrite E. cbn [fst]. apply valid_item_test in Hi as Hi'. rewrite Hi'.
    destruct (accepted_handles (this w) env u q a proof) as [[[hu hq] ha]|] eqn:Hacc;
      [| done ].
    apply accepted_handles_Some in Hacc as (Hu & Hq & Ha).
    rewrite (addPurchase_accepted _ _ _ _ _ _ _ _ _ _ Hi Hu Hq Ha) in E.
    discriminate.
  - rewrite E. cbn [fst]. apply valid_item_test in Hi. rewrite Hi.
    by rewrite (proj2 (accepted_handles_Some _ _ _ _ _ _ hu hq ha)).
Qed.

(** The ledger after a call run as a transaction. *)
Lemma exec_addPurchase_eq env item u q a proof w :
  exec (OpAddPurchase env item u q a proof) w
  = if writes (this w) (OpAddPurchase env item u q a proof)
    then match accepted_handles (this w) env u q a proof with
         | Some (hu, hq, ha) => appended_world env item u q a proof hu hq ha w
         | None => w
         end
    else w.
Proof.
  unfold exec, transact, writes.
  destruct (addPurchase_cases env item u q a proof w)
    as [[Hi E] | [[Hi (w' & E & _)] | [Hi (hu & hq & ha & Hu & Hq & Ha & E)]]];
    rewrite E; cbn [fst snd].
  - apply invalid_item_test in Hi. by rewrite Hi.
  - destruct (accepted_handles (this w) env u q a proof) as [[[hu hq] ha]|] eqn:Hacc.
    + apply accepted_handles_Some in Hacc as (Hu & Hq & Ha).
      rewrite (addPurchase_accepted _ _ _ _ _ _ _ _ _ _ Hi Hu Hq Ha) in E.
      discriminate.
    + by destruct (negb _ && _).
  - apply valid_item_test in Hi. rewrite Hi.
    rewrite (proj2 (accepted_handles_Some _ _ _ _ _ _ hu hq ha)) by done.
    cbn [negb andb]. rewrite bool_decide_eq_true_2; [ done | by eexists ].
Qed.

Lemma exec_not_writes op w : writes (this w) op = false -> exec op w = w.
Proof.
  destruct op as [env item u q a proof | merchant | merchant index]; intros Hw.
  - by rewrite exec_addPurchase_eq, Hw.
  - done.
  - apply exec_view_getPurchase.
Qed.

(** A call that is let through, with what it appends. *)
Lemma exec_writes op w :
  writes (this w) op = true ->
  ∃ env item u q a proof hu hq ha,
    op = OpAddPurchase env item u q a proof
    ∧ ¬ invalid_item item
    ∧ accepted_handles (this w) env u q a proof = Some (hu, hq, ha)
    ∧ exec op w = appended_world env item u q a proof hu hq ha w.
Proof.
  destruct op as [env item u q a proof | merchant | merchant index]; [| done.. ].
  intros Hw. rewrite exec_addPurchase_eq, Hw.
  unfold writes in Hw. apply andb_true_iff in Hw as [Hi Hacc].
  apply negb_true_iff, valid_item_test in Hi.
  apply bool_decide_eq_true in Hacc as [[[hu hq] ha] Hacc].
  exists env, item, u, q, a, proof, hu, hq, ha. by rewrite Hacc.
Qed.


(** X2: the outcome of [addPurchase] does not depend on what the ledger
    holds, only on the address of the contract: on two ledgers of the same
    contract the same call gives the same result. *)
Theorem addPurchase_result_independent_of_ledger env item u q a proof w1 w2 :
  this w1 = this w2 ->
  (addPurchase env item u q a proof w1).1 = (addPurchase env item u q a proof w2).1.
Proof. intros Hthis. by rewrite !addPurchase_result, Hthis. Qed.

(** X3: reading after writing.  After a successful [addPurchase] the caller
    reads the new record at the index that was the count, the records below
    it as before, and [InvalidIndex] above it. *)
Theorem getPurchase_after_addPurchase env item u q a proof w w' :
  addPurchase env item u q a proof w = (Ok tt, w') ->
  ∃ hu hq ha,
    accepted_handles (this w) env u q a proof = Some (hu, hq, ha)
    ∧ ∀ i,
        (getPurchase (msg_sender env) i w').1
        = if i <? count_of (msg_sender env) w
          then (getPurchase (msg_sender env) i w).1
          else if i =? count_of (msg_sender env) w
               then Ok (hu, item, hq, ha, uint64 (block_timestamp env))
               else Revert InvalidIndex.
Proof.
  intros Hrun.
  apply addPurchase_ok_inv in Hrun as (_ & hu & hq & ha & Hu & Hq & Ha & ->).
  exists hu, hq, ha. split; [ by apply accepted_handles_Some |].
  intros i. rewrite !getPurchase_eq. cbn [fst].
  rewrite purchasesOf_appended_owner. unfold count_of.
  destruct (N.ltb_spec i (N.of_nat (length (purchasesOf (msg_sender env) w))))
    as [Hlt | Hge].
  - by rewrite lookup_app_l by lia.
  - destruct (N.eqb_spec i (N.of_nat (length (purchasesOf (msg_sender env) w))))
      as [-> | Hne].
    + by rewrite lookup_last_pushed.
    + rewrite (proj2 (lookup_ge_None _ _)); [ done |].
      rewrite length_app. cbn. lia.
Qed.

End Outcome.

(** ** Invariants of the ledger *)

Section Invariants.
Context `{EncryptionScheme}.

(** A property kept by every accepted append is kept by every call, and
    along every sequence of calls. *)
Lemma exec_invariant (P : World -> Prop) op w :
  (∀ env item u q a proof hu hq ha w,
     ¬ invalid_item item -> P w ->
     P (appended_world env item u q a proof hu hq ha w)) ->
  P w -> P (exec op w).
Proof.
  intros Hstep HP.
  destruct (writes (this w) op) eqn:Hw.
  - apply exec_writes in Hw
      as (env & item & u & q & a & proof & hu & hq & ha & _ & Hi & _ & ->).
    by apply Hstep.
  - by rewrite exec_not_writes.
Qed.

Lemma run_invariant (P : World -> Prop) ops :
  (∀ env item u q a proof hu hq ha w,
     ¬ invalid_item item -> P w ->
     P (appended_world env item u q a proof hu hq ha w)) ->
  ∀ w, P w -> P (run ops w).
Proof.
  intros Hstep. induction ops as [| op ops IH]; intros w HP; [ done |].
  rewrite run_cons. by apply IH, exec_invariant.
Qed.

Lemma elem_of_purchasesOf_appended env item u q a proof hu hq ha w owner p :
  p ∈ purchasesOf owner (appended_world env item u q a proof hu hq ha w)
  <-> p ∈ purchasesOf owner w
      ∨ (owner = msg_sender env ∧ p = new_purchase env item hu hq ha).
Proof.
  destruct (decide (owner = msg_sender env)) as [-> | Hne].
  - rewrite purchasesOf_appended_owner, elem_of_app, list_elem_of_singleton.
    naive_solver.
  - rewrite purchasesOf_appended_other by done. naive_solver.
Qed.

Lemma uint64_lt x : uint64 x < 2 ^ 64.
Proof. unfold uint64. by apply N.mod_lt. Qed.

Lemma records_wellformed_appended env item u q a proof hu hq ha w :
  ¬ invalid_item item ->
  records_wellformed w ->
  records_wellformed (appended_world env item u q a proof hu hq ha w).
Proof.
  intros Hi Hinv owner p [Hold | [_ ->]]%elem_of_purchasesOf_appended.
  - by apply (Hinv owner).
  - cbn [PhantomDB.item timestamp new_purchase]. split; [| apply uint64_lt ].
    unfold invalid_item in Hi. lia.
Qed.

Lemma records_wellformed_initial self : records_wellformed (initial self).
Proof. intros owner p Hin. rewrite purchasesOf_initial in Hin. by apply elem_of_nil in Hin. Qed.

Lemma events_of_app owner l l' :
  events_of owner (l ++ l') = events_of owner l ++ events_of owner l'.
Proof.
  induction l as [| [merchant index it ts] l IH]; [ done |].
  cbn. rewrite IH. by case_bool_decide.
Qed.

Lemma events_mirror_records_appended env item u q a proof hu hq ha w :
  events_mirror_records w ->
  events_mirror_records (appended_world env item u q a proof hu hq ha w).
Proof.
  intros Hinv owner. cbn [logs appended_world].
  rewrite events_of_app, Hinv. cbn [events_of].
  case_bool_decide as Hs.
  - subst owner. rewrite purchasesOf_appended_owner, imap_app. f_equal.
    cbn. unfold event_of, count_of. cbn. by rewrite Nat.add_0_r.
  - rewrite purchasesOf_appended_other by done. by rewrite app_nil_r.
Qed.

Lemma events_mirror_records_initial self : events_mirror_records (initial self).
Proof. intros owner. by rewrite purchasesOf_initial. Qed.

Lemma handle_of_new_purchase env item hu hq ha h :
  handle_of (new_purchase env item hu hq ha) h <-> h = hu ∨ h = hq ∨ h = ha.
Proof. reflexivity. Qed.

Lemma grants_are_record_grants_appended env item u q a proof hu hq ha w :
  grants_are_record_grants w ->
  grants_are_record_grants (appended_world env item u q a proof hu hq ha w).
Proof.
  intros Hinv h principal.
  change (this (appended_world env item u q a proof hu hq ha w)) with (this w).
  rewrite grants_appended, elem_of_union, elem_of_record_grants, (Hinv h principal).
  split.
  - intros [(owner & p & Hp & Hh & Hpr) | [Hh Hpr]].
    + exists owner, p. rewrite elem_of_purchasesOf_appended. auto.
    + exists (msg_sender env), (new_purchase env item hu hq ha).
      rewrite elem_of_purchasesOf_appended, handle_of_new_purchase.
      split; [ by right |]. split; [ done |]. destruct Hpr; auto.
  - intros (owner & p & Hp & Hh & Hpr).
    apply elem_of_purchasesOf_appended in Hp as [Hold | [-> ->]].
    + left. eauto.
    + right. apply handle_of_new_purchase in Hh. split; [ done |].
      destruct Hpr; auto.
Qed.

Lemma grants_are_record_grants_initial self : grants_are_record_grants (initial self).
Proof.
  intros h principal. cbn [grants initial]. split.
  - by intros ?%not_elem_of_empty.
  - intros (owner & p & Hp & _). rewrite purchasesOf_initial in Hp.
    by apply elem_of_nil in Hp.
Qed.

(** X4: on every ledger reached from deployment, every stored record has an
    item of 1 to 64 bytes and a timestamp below 2^64. *)
Theorem stored_records_wellformed (self : address) (ops : list Op) owner p :
  p ∈ purchasesOf owner (run ops (initial self)) ->
  1 <= bytes_length (item p) <= 64 ∧ timestamp p < 2 ^ 64.
Proof.
  apply (run_invariant records_wellformed ops).
  - intros. by apply records_wellformed_appended.
  - apply records_wellformed_initial.
Qed.

(** X5: on every ledger reached from deployment the event log mirrors the
    records: the events naming an owner are, in order, one [PurchaseAdded]
    per stored record of that owner, with the position of the record as
    index and its item and timestamp. *)
Theorem events_mirror_stored_records (self owner : address) (ops : list Op) :
  events_of owner (logs (run ops (initial self)))
  = imap (fun k p => PurchaseAdded owner (N.of_nat k) (item p) (timestamp p))
      (purchasesOf owner (run ops (initial self))).
Proof.
  apply (run_invariant events_mirror_records ops).
  - intros. by apply events_mirror_records_appended.
  - apply events_mirror_records_initial.
Qed.

(** X6: on every ledger reached from deployment a principal holds a grant on
    a handle exactly when the handle belongs to a stored record and the
    principal is the owner of that record or the contract. *)
Theorem grants_are_those_of_stored_records (self : address) (ops : list Op)
    (h : handle) (principal : address) :
  let w := run ops (initial self) in
  isGranted h principal w = true
  <-> ∃ owner p,
        p ∈ purchasesOf owner w
        ∧ (h = userId p ∨ h = quantity p ∨ h = amount p)
        ∧ (principal = owner ∨ principal = self).
Proof.
  intros w. unfold isGranted. rewrite bool_decide_eq_true.
  assert (Hinv : grants_are_record_grants w).
  { apply (run_invariant grants_are_record_grants ops).
    - intros. by apply grants_are_record_grants_appended.
    - apply grants_are_record_grants_initial. }
  rewrite (Hinv h principal). subst w. by rewrite run_this.
Qed.

(** X7: nothing is ever taken back.  Along any sequence of calls from any
    ledger the contract address stays, the grants only grow, and the event
    log and the trace of external calls are only extended. *)
Theorem ledger_only_grows (ops : list Op) (w : World) :
  this (run ops w) = this w
  ∧ grants w ⊆ grants (run ops w)
  ∧ logs w `prefix_of` logs (run ops w)
  ∧ calls w `prefix_of` calls (run ops w).
Proof.
  apply (run_invariant (fun w' =>
           this w' = this w ∧ grants w ⊆ grants w'
           ∧ logs w `prefix_of` logs w' ∧ calls w `prefix_of` calls w') ops);
    [| done ].
  intros env item u q a proof hu hq ha w' _ (Hthis & Hgr & Hlog & Hcalls).
  split; [ done |]. split; [| split ].
  - rewrite grants_appended. set_solver.
  - by apply prefix_app_r.
  - by apply prefix_app_r.
Qed.

(** X8: reads and calls that revert leave no trace: a sequence of calls
    leads to the same ledger as the sequence of its accepted [addPurchase]
    calls alone. *)
Theorem run_accepted_appends_only (ops : list Op) : ∀ w,
  run ops w = run (List.filter (writes (this w)) ops) w.
Proof.
  induction ops as [| op ops IH]; intros w; [ done |].
  rewrite run_cons. cbn [List.filter].
  destruct (writes (this w) op) eqn:Hw.
  - by rewrite run_cons, IH, exec_this.
  - rewrite exec_not_writes by done. apply IH.
Qed.

End Invariants.

(** ** Independent owners *)

Section Commutation.
Context `{EncryptionScheme}.

(** Two accepted appends of different owners, in either order. *)
Lemma appended_world_commute env1 item1 u1 q1 a1 proof1 hu1 hq1 ha1
    env2 item2 u2 q2 a2 proof2 hu2 hq2 ha2 w :
  msg_sender env1 ≠ msg_sender env2 ->
  let w12 := appended_world env2 item2 u2 q2 a2 proof2 hu2 hq2 ha2
               (appended_world env1 item1 u1 q1 a1 proof1 hu1 hq1 ha1 w) in
  let w21 := appended_world env1 item1 u1 q1 a1 proof1 hu1 hq1 ha1
               (appended_world env2 item2 u2 q2 a2 proof2 hu2 hq2 ha2 w) in
  purchasesByMerchant w12 = purchasesByMerchant w21
  ∧ grants w12 = grants w21
  ∧ ∀ owner, events_of owner (logs w12) = events_of owner (logs w21).
Proof.
  intros Hne w12 w21. subst w12 w21. split; [| split ].
  - cbn [purchasesByMerchant appended_world].
    rewrite (purchasesOf_appended_other env1) by done.
    rewrite (purchasesOf_appended_other env2) by done.
    by apply insert_insert_ne.
  - rewrite !grants_appended. cbn [this appended_world]. set_solver.
  - intros owner. cbn [logs appended_world].
    unfold count_of.
    rewrite (purchasesOf_appended_other env1) by done.
    rewrite (purchasesOf_appended_other env2) by done.
    rewrite !events_of_app. cbn [events_of].
    repeat case_bool_decide; try congruence; by rewrite ?app_nil_r.
Qed.

(** X9: appends of different owners do not interfere.  Two [addPurchase]
    calls sent by different principals lead, in either order, to the same
    storage and the same grants, and each owner sees the same events with
    the same indices; this holds whether the calls succeed or revert. *)
Theorem appends_of_distinct_owners_commute
    env1 item1 u1 q1 a1 proof1 env2 item2 u2 q2 a2 proof2 w :
  msg_sender env1 ≠ msg_sender env2 ->
  let op1 := OpAddPurchase env1 item1 u1 q1 a1 proof1 in
  let op2 := OpAddPurchase env2 item2 u2 q2 a2 proof2 in
  let w12 := run [op1; op2] w in
  let w21 := run [op2; op1] w in
  purchasesByMerchant w12 = purchasesByMerchant w21
  ∧ grants w12 = grants w21
  ∧ (∀ owner, events_of owner (logs w12) = events_of owner (logs w21))
  ∧ ∀ owner i, (getPurchase owner i w12).1 = (getPurchase owner i w21).1.
Proof.
  intros Hne op1 op2 w12 w21.
  assert (Hmain : purchasesByMerchant w12 = purchasesByMerchant w21
                  ∧ grants w12 = grants w21
                  ∧ ∀ owner, events_of owner (logs w12) = events_of owner (logs w21)).
  { subst w12 w21 op1 op2. rewrite !run_cons. cbn [run foldl].
    rewrite (exec_addPurchase_eq env2 _ _ _ _ _ (exec _ w)).
    rewrite (exec_addPurchase_eq env1 _ _ _ _ _ (exec _ w)).
    rewrite !exec_this, !exec_addPurchase_eq.
    destruct (writes (this w) (OpAddPurchase env1 item1 u1 q1 a1 proof1));
      destruct (writes (this w) (OpAddPurchase env2 item2 u2 q2 a2 proof2));
      destruct (accepted_handles (this w) env1 u1 q1 a1 proof1) as [[[hu1 hq1] ha1]|];
      destruct (accepted_handles (this w) env2 u2 q2 a2 proof2) as [[[hu2 hq2] ha2]|];
      try done.
    by apply appended_world_commute. }
  destruct Hmain as (Hst & Hgr & Hev).
  repeat split; try done.
  intros owner i. rewrite !getPurchase_eq. cbn [fst].
  unfold purchasesOf. by rewrite Hst.
Qed.

End Commutation.

(** ** More on the listing *)

Section ListingMore.
Context `{EncryptionScheme}.
Import PurchaseRecords.

(** The newest record comes first. *)
Lemma take_reverse_imap_snoc {A B} (f : nat -> A -> B) (l : list A) (x : A) k :
  take (S k) (reverse (imap f (l ++ [x])))
  = f (length l) x :: take k (reverse (imap f l)).
Proof.
  rewrite imap_app, reverse_app. cbn. by rewrite Nat.add_0_r.
Qed.

Lemma reachable_grants (self : address) (ops : list Op) :
  grants_are_record_grants (run ops (initial self)).
Proof.
  apply (run_invariant grants_are_record_grants ops).
  - intros. by apply grants_are_record_grants_appended.
  - apply grants_are_record_grants_initial.
Qed.

Lemma lookup_rows_index owner w k (j : nat) row :
  most_recent k owner w !! j = Some row ->
  index row = (Z.of_N (count_of owner w) - 1 - Z.of_nat j)%Z
  ∧ (0 <= index row)%Z
  ∧ ∃ p, purchasesOf owner w !! Z.to_nat (index row) = Some p
         ∧ row = row_of (index row) p.
Proof.
  intros (_ & Hlt & p & Hp & ->)%lookup_most_recent.
  cbn [index row_of]. unfold count_of.
  split; [ lia |]. split; [ lia |].
  exists p. by rewrite Nat2Z.id.
Qed.

(** X10: the rows that [load] lists come by decreasing index from the last
    record on: row [j] has index [count - 1 - j] and carries what
    [getPurchase] returns at that index; the keys of the rows
    ([index.toString()]) are pairwise different. *)
Theorem load_rows_by_decreasing_index owner w v :
  ∃ v',
    load (Some owner) w v = Some v'
    ∧ (∀ (j : nat) row,
         rows v' !! j = Some row ->
         index row = (Z.of_N (count_of owner w) - 1 - Z.of_nat j)%Z
         ∧ (0 <= index row)%Z
         ∧ (getPurchase owner (Z.to_N (index row)) w).1
           = Ok (userIdHandle row, item row, quantityHandle row,
                 amountHandle row, Z.to_N (timestamp row)))
    ∧ NoDup (row_key <$> rows v').
Proof.
  eexists. split; [ apply load_connected |]. cbn [rows]. split.
  - intros j row Hrow.
    apply lookup_rows_index in Hrow as (Hidx & Hpos & p & Hp & Hrow).
    split; [ done |]. split; [ done |].
    rewrite getPurchase_eq. cbn [fst].
    replace (N.to_nat (Z.to_N (index row))) with (Z.to_nat (index row)) by lia.
    rewrite Hp, Hrow. cbn. by rewrite N2Z.id.
  - apply NoDup_alt. intros i j key Hi Hj.
    apply list_lookup_fmap_Some in Hi as (ri & -> & Hi).
    apply list_lookup_fmap_Some in Hj as (rj & Hkey & Hj).
    unfold row_key in Hkey. apply pretty_Z_inj in Hkey.
    apply lookup_rows_index in Hi as (Hi & _).
    apply lookup_rows_index in Hj as (Hj & _).
    lia.
Qed.

(** X11: the banner and the placeholder tell the truth.  After [load], the
    component shows "Showing latest 200" exactly when some record of the
    owner is not listed (the owner has more than 200), and "No records yet."
    exactly when the owner has no record. *)
Theorem load_banner_iff_records_left_out owner w v :
  ∃ v',
    load (Some owner) w v = Some v'
    ∧ (shows_latest v' = true
       <-> (length (rows v') < length (purchasesOf owner w))%nat)
    ∧ (shows_latest v' = true <-> 200 < count_of owner w)
    ∧ (shows_no_records v' = true <-> count_of owner w = 0).
Proof.
  eexists. split; [ apply load_connected |].
  unfold shows_latest, shows_no_records, MAX_TO_LOAD.
  cbn [rows count isLoading negb andb].
  rewrite length_most_recent, Z.ltb_lt, Nat.eqb_eq. unfold count_of.
  repeat split; lia.
Qed.

(** X12: what was just added is listed first.  After a successful
    [addPurchase], [load] for the caller shows the new record on top, with
    the index the event announced, followed by the first 199 rows of the
    listing before the call. *)
Theorem load_after_addPurchase env item u q a proof w w' v0 v1 :
  addPurchase env item u q a proof w = (Ok tt, w') ->
  ∃ hu hq ha v v',
    accepted_handles (this w) env u q a proof = Some (hu, hq, ha)
    ∧ load (Some (msg_sender env)) w v0 = Some v
    ∧ load (Some (msg_sender env)) w' v1 = Some v'
    ∧ rows v'
      = row_of (Z.of_N (count_of (msg_sender env) w)) (new_purchase env item hu hq ha)
        :: take 199 (rows v).
Proof.
  intros Hrun.
  apply addPurchase_ok_inv in Hrun as (_ & hu & hq & ha & Hu & Hq & Ha & ->).
  exists hu, hq, ha. do 2 eexists.
  split; [ by apply accepted_handles_Some |].
  split; [ apply load_connected |]. split; [ apply load_connected |].
  cbn [rows]. unfold most_recent.
  rewrite purchasesOf_appended_owner.
  rewrite (take_reverse_imap_snoc _ _ _ 199), take_take.
  unfold count_of. by rewrite nat_N_Z.
Qed.

(** X13: an owner can ask for what it lists.  On every ledger reached from
    deployment, each handle that [decryptRow] would submit for a row listed
    by [load] is paired with the contract and is granted both to the owner
    and to the contract. *)
Theorem listed_handles_are_granted (self owner : address) (ops : list Op) v :
  let w := run ops (initial self) in
  ∃ v',
    load (Some owner) w v = Some v'
    ∧ ∀ row h c,
        row ∈ rows v' ->
        (h, c) ∈ handleContractPairs row (this w) ->
        c = self
        ∧ isGranted h owner w = true
        ∧ isGranted h self w = true.
Proof.
  intros w. eexists. split; [ apply load_connected |]. cbn [rows].
  intros row h c [j Hrow]%list_elem_of_lookup Hpair.
  apply lookup_rows_index in Hrow as (_ & _ & p & Hp & Hrow).
  assert (Hthis : this w = self) by (subst w; by rewrite run_this).
  assert (c = self ∧ handle_of p h) as [-> Hh].
  { rewrite Hrow in Hpair. unfold handleContractPairs, handle_of in *.
    cbn in Hpair. rewrite Hthis in Hpair.
    rewrite !elem_of_cons in Hpair.
    destruct Hpair as [E | [E | [E | E%elem_of_nil]]]; [ .. | done ];
      injection E as -> ->; auto. }
  split; [ done |].
  unfold isGranted. rewrite !bool_decide_eq_true.
  pose proof (reachable_grants self ops) as Hinv. fold w in Hinv.
  apply list_elem_of_lookup_2 in Hp.
  split; apply Hinv; exists owner, p; rewrite ?Hthis; auto.
Qed.

End ListingMore.

(** ** Decrypting a row *)

Section DecryptRow.
Import PurchaseRecords Decryption.

Lemma row_key_inj (r1 r2 : RecordRow) : row_key r1 = row_key r2 -> index r1 = index r2.
Proof. unfold row_key. apply pretty_Z_inj. Qed.

(** The three ways [decryptRow] can go. *)
Lemma decryptRow_cases hooks contractAddress row st :
  (decryptRow hooks contractAddress row st
   = {| decryptingIndex := decryptingIndex st; decrypted := decrypted st;
        alerts := alerts st ++ [MissingComponents] |}
   ∧ (instance hooks = None ∨ address hooks = None ∨ signerPromise hooks = None))
  ∨ (decryptRow hooks contractAddress row st
     = {| decryptingIndex := None; decrypted := decrypted st;
          alerts := alerts st ++ [FailedToDecrypt] |})
  ∨ (∃ inst user signer result,
       instance hooks = Some inst ∧ address hooks = Some user
       ∧ signerPromise hooks = Some (Some signer)
       ∧ signTypedData signer = true
       ∧ userDecrypt inst (handleContractPairs row contractAddress)
           [contractAddress] user = Some result
       ∧ decryptRow hooks contractAddress row st
         = {| decryptingIndex := None;
              decrypted :=
                <[row_key row :=
                    {| userId := shown result (userIdHandle row);
                       quantity := shown result (quantityHandle row);
                       amount := shown result (amountHandle row) |}]>
                  (decrypted st);
              alerts := alerts st |}).
Proof.
  unfold decryptRow.
  destruct (instance hooks) as [inst|]; [| left; auto ].
  destruct (address hooks) as [user|]; [| left; auto ].
  destruct (signerPromise hooks) as [signer|]; [| left; auto ].
  right.
  destruct (request inst user signer contractAddress row) as [result|] eqn:Hreq;
    [| by left ].
  right. unfold request in Hreq.
  destruct signer as [signer|]; [| done ].
  destruct (signTypedData signer) eqn:Hsign; [| done ].
  exists inst, user, signer, result. auto 10.
Qed.

(** X14: [decryptRow] touches the entry of its own row only.  What is shown
    for a row with another index is as before, nothing that was decrypted is
    lost, and the call either stores the three answers of [userDecrypt]
    under the key of the row (a missing answer reads as the empty string) and
    shows no alert, or leaves all decrypted values as they were and shows
    one alert.  Unless a component was missing, the row is no longer marked
    as being decrypted. *)
Theorem decryptRow_touches_its_row_only hooks contractAddress row st :
  let st' := decryptRow hooks contractAddress row st in
  (∀ other, index other ≠ index row ->
            decrypted st' !! row_key other = decrypted st !! row_key other)
  ∧ (∀ other, is_decrypted st other = true -> is_decrypted st' other = true)
  ∧ ((decrypted st' = decrypted st
      ∧ ∃ alert, alerts st' = alerts st ++ [alert])
     ∨ (alerts st' = alerts st
        ∧ ∃ inst user result,
            instance hooks = Some inst ∧ address hooks = Some user
            ∧ userDecrypt inst (handleContractPairs row contractAddress)
                [contractAddress] user = Some result
            ∧ decrypted st' !! row_key row
              = Some {| userId := shown result (userIdHandle row);
                        quantity := shown result (quantityHandle row);
                        amount := shown result (amountHandle row) |}))
  ∧ (decryptingIndex st' = None
     ∨ (decryptingIndex st' = decryptingIndex st
        ∧ (instance hooks = None ∨ address hooks = None
           ∨ signerPromise hooks = None))).
Proof.
  intros st'. subst st'.
  destruct (decryptRow_cases hooks contractAddress row st)
    as [[-> Hmiss] | [-> | (inst & user & signer & result & Hi & Ha & _ & _ & Hres & ->)]];
    cbn [decrypted alerts decryptingIndex].
  - split; [ done |]. split; [ done |]. split; [ left; eauto | right; auto ].
  - split; [ done |]. split; [ done |]. split; [ left; eauto | by left ].
  - split; [| split; [| split; [| by left ] ] ].
    + intros other Hne. apply lookup_insert_ne.
      intros Hkey%row_key_inj. congruence.
    + intros other. unfold is_decrypted. cbn [decrypted].
      rewrite !bool_decide_eq_true. intros Hsome.
      destruct (decide (row_key row = row_key other)) as [-> | Hne].
      * rewrite lookup_insert_eq. by eexists.
      * by rewrite lookup_insert_ne.
    + right. split; [ done |]. exists inst, user, result.
      by rewrite lookup_insert_eq.
Qed.

End DecryptRow.

(** ** The purchase form *)

Section Form.
Context `{JsBuiltins} `{EncryptionScheme}.
Import PurchaseForm.




(** X16: a submitted item that is encoded with one byte per character
    passes the item check of the contract: the transaction the form sends
    does not revert with [InvalidItem]. *)
Theorem submitted_item_passes_item_check (h : Hooks) (f : Form) (s : Submission)
    (bytes : string) env u q a proof w :
  submit h f = Some s ->
  toUtf8Bytes (call_item s) = Some bytes ->
  String.length bytes = js_length (call_item s) ->
  ¬ invalid_item bytes
  ∧ (addPurchase env bytes u q a proof w).1 ≠ Revert InvalidItem.
Proof.
  intros Hsub _ Hlen.
  assert (Hlen64 : (1 <= js_length (call_item s) <= 64)%nat).
  { unfold submit, canSubmit, truthy in Hsub.
    cbn [parsed parsed_item] in Hsub.
    destruct (Nat.eqb_spec (js_length (js_trim (item f))) 0);
      [ by rewrite ?andb_false_r in Hsub |].
    destruct (Nat.leb_spec (js_length (js_trim (item f))) 64);
      [| by rewrite ?andb_false_r in Hsub ].
    destruct (_ || _); [ done |].
    repeat case_match; try done. injection Hsub as <-. cbn. lia. }
  assert (Hvalid : ¬ invalid_item bytes).
  { unfold invalid_item, bytes_length. rewrite Hlen. lia. }
  split; [ done |].
  rewrite addPurchase_result. apply valid_item_test in Hvalid. by rewrite Hvalid;
    destruct (accepted_handles _ _ _ _ _ _).
Qed.

End Form.

(** ** The further properties at work on the sample ledger *)

Lemma addPurchase_result_independent_of_ledger_witness :
  (@addPurchase sample_scheme alice_env "Tea" 21 22 23 some_proof (initial deployed)).1
  = (@addPurchase sample_scheme alice_env "Tea" 21 22 23 some_proof two_owners).1.
Proof.
  apply (@addPurchase_result_independent_of_ledger sample_scheme alice_env
           "Tea" 21 22 23 some_proof (initial deployed) two_owners).
  vm_compute. reflexivity.
Defined.

Lemma getPurchase_after_addPurchase_witness :
  ∃ hu hq ha,
    @accepted_handles sample_scheme (this one_record) alice_env 21 22 23 some_proof
    = Some (hu, hq, ha)
    ∧ ∀ i,
        (getPurchase alice i (@run sample_scheme [add_tea] one_record)).1
        = if i <? count_of alice one_record
          then (getPurchase alice i one_record).1
          else if i =? count_of alice one_record
               then Ok (hu, "Tea", hq, ha, uint64 (block_timestamp alice_env))
               else Revert InvalidIndex.
Proof.
  apply (@getPurchase_after_addPurchase sample_scheme alice_env
           "Tea" 21 22 23 some_proof one_record).
  vm_compute. reflexivity.
Defined.

Lemma stored_records_wellformed_witness :
  1 <= bytes_length "Coffee" <= 64 ∧ uint64 1700000000 < 2 ^ 64.
Proof.
  apply (@stored_records_wellformed sample_scheme deployed [add_coffee] alice
           (new_purchase alice_env "Coffee" 11 12 13)).
  replace (purchasesOf alice (@run sample_scheme [add_coffee] (initial deployed)))
    with [new_purchase alice_env "Coffee" 11 12 13] by (vm_compute; reflexivity).
  apply list_elem_of_singleton. reflexivity.
Defined.

Lemma appends_of_distinct_owners_commute_witness :
  let w12 := @run sample_scheme [add_coffee; add_bread] (initial deployed) in
  let w21 := @run sample_scheme [add_bread; add_coffee] (initial deployed) in
  purchasesByMerchant w12 = purchasesByMerchant w21
  ∧ grants w12 = grants w21
  ∧ (∀ owner, events_of owner (logs w12) = events_of owner (logs w21))
  ∧ ∀ owner i, (getPurchase owner i w12).1 = (getPurchase owner i w21).1.
Proof.
  apply (@appends_of_distinct_owners_commute sample_scheme
           alice_env "Coffee" 11 12 13 some_proof
           bob_env "Bread" 41 42 43 some_proof (initial deployed)).
  vm_compute. discriminate.
Defined.

Lemma load_after_addPurchase_witness :
  ∃ hu hq ha v v',
    @accepted_handles sample_scheme (this one_record) alice_env 21 22 23 some_proof
    = Some (hu, hq, ha)
    ∧ PurchaseRecords.load (Some alice) one_record empty_view = Some v
    ∧ PurchaseRecords.load (Some alice) (@run sample_scheme [add_tea] one_record)
        empty_view = Some v'
    ∧ PurchaseRecords.rows v'
      = row_of (Z.of_N (count_of alice one_record))
          (new_purchase alice_env "Tea" hu hq ha)
        :: take 199 (PurchaseRecords.rows v).
Proof.
  apply (@load_after_addPurchase sample_scheme alice_env
           "Tea" 21 22 23 some_proof one_record
           (@run sample_scheme [add_tea] one_record) empty_view empty_view).
  vm_compute. reflexivity.
Defined.

Lemma submitted_item_passes_item_check_witness :
  ¬ invalid_item "Coffee"
  ∧ (@addPurchase sample_scheme alice_env "Coffee" 11 12 13 some_proof
       (initial deployed)).1 ≠ Revert InvalidItem.
Proof.
  apply (@submitted_item_passes_item_check sample_builtins sample_scheme
           alice_hooks coffee_form coffee_submission "Coffee"
           alice_env 11 12 13 some_proof (initial deployed)).
  - vm_compute. reflexivity.
  - reflexivity.
  - reflexivity.
Defined.

(** The form refuses what does not fit: an empty item, an amount of 2^64. *)
Example form_refuses_empty_item :
  @PurchaseForm.submit sample_builtins alice_hooks
    {| PurchaseForm.userId := "1001" : @JsString sample_builtins;
       PurchaseForm.item := "" : @JsString sample_builtins;
       PurchaseForm.quantity := "2" : @JsString sample_builtins;
       PurchaseForm.amount := "700" : @JsString sample_builtins;
       PurchaseForm.isSubmitting := false |}
  = None.
Proof. vm_compute. reflexivity. Qed.

Example form_refuses_large_amount :
  @PurchaseForm.parseUint64 sample_builtins "18446744073709551615"
  = Some 18446744073709551615%Z
  ∧ @PurchaseForm.parseUint64 sample_builtins "18446744073709551616" = None
  ∧ @PurchaseForm.parseUint32 sample_builtins "4294967295" = Some 4294967295%Z
  ∧ @PurchaseForm.parseUint32 sample_builtins "4294967296" = None.
Proof. repeat split; vm_compute; reflexivity. Qed.
